(** * pkg/kube/client.go: the istioctl Kubernetes client helper

    A shallow embedding of the [client] methods of [pkg/kube/client.go]
    (pod resolution, proxy and tunnel invocations, the fan-out loops, the
    version string parsing, [PodExec]'s error wrapping, the pod logs, the
    request of [proxyGet] and the YAML operations) together with the
    properties stated about them.

    Go values are modelled as follows.
    - [string] and [[]byte] are both byte sequences: Rocq's [string].
    - [map[string]string] and [map[string][]byte] are [gmap string string].
    - an [error] interface value is [option error] ([None] is [nil]).
    - a nil slice is the empty list; a nil [*version.MeshInfo] is [None].
    - the map that [GetIstioPods] is given and writes into is an
      [option]: [None] is the nil map, which can be read and ranged over
      like the empty map, and whose assignment panics. A call returns
      ([Returns]) or panics ([Panics]), and gives back the map as the
      caller finds it afterwards.
    - a pointer to a [rest.Config] is a location of a store of configs.
    - the cluster, the HTTP stack and the port forwarder are collaborators
      outside the file: they are the fields of a record [Env], and every
      call made to them is written to a trace. *)

From Stdlib Require Import ZArith String Ascii List Lia.
From stdpp Require Import gmap strings list pretty.

Local Open Scope string_scope.
Local Open Scope list_scope.

(** ** Go's [strings] package, as far as the client uses it *)

Module strings.

(** [strings.Split(s, sep)] for a one-byte separator: the segments of [s]
    between the occurrences of [sep]; never the empty list. *)
Fixpoint Split (s : string) (sep : ascii) : list string :=
  match s with
  | EmptyString => [EmptyString]
  | String c s' =>
      if Ascii.eqb c sep then EmptyString :: Split s' sep
      else match Split s' sep with
           | [] => [String c EmptyString]
           | seg :: segs => String c seg :: segs
           end
  end.

(** [strings.Join(elems, sep)]. *)
Fixpoint Join (elems : list string) (sep : string) : string :=
  match elems with
  | [] => EmptyString
  | [e] => e
  | e :: rest => e +:+ sep +:+ Join rest sep
  end.

(** The substring test of [strings.Contains], as a proposition. *)
Definition Contains (s substr : string) : Prop :=
  exists pre post : string, s = pre +:+ substr +:+ post.

End strings.

(** ** [istio.io/pkg/version]: the records filled by [GetIstioVersions] *)

Record BuildInfo := mkBuildInfo {
  Version : string;
  GitRevision : string;
  GolangVersion : string;
  BuildStatus : string;
  GitTag : string
}.

Record ServerInfo := mkServerInfo {
  Component : string;
  Info : BuildInfo
}.

Definition MeshInfo := list ServerInfo.

(** The zero value of [BuildInfo]. *)
Definition emptyBuildInfo : BuildInfo := mkBuildInfo "" "" "" "" "".

(** The slice expression [versionParts[lo:hi]]. *)
Definition slice {A} (l : list A) (lo hi : nat) : list A :=
  firstn (hi - lo) (skipn lo l).

(** The body of [if len(result) > 0 { ... }] of [GetIstioVersions]
    (client.go, lines 394-403): the fields written into [server.Info]
    from the payload of the [/version] endpoint. *)
Definition parseVersion (result : string) : BuildInfo :=
  let versionParts := strings.Split result "-" in
  let nParts := length versionParts in
  if (3 <=? nParts)%nat then
    let v := strings.Join (slice versionParts 0 (nParts - 2)) "-" in
    {| Version := v;
       GitTag := v;
       GitRevision := nth (nParts - 2) versionParts "";
       BuildStatus := nth (nParts - 1) versionParts "";
       GolangVersion := "" |}
  else
    {| Version := result; GitTag := ""; GitRevision := "";
       BuildStatus := ""; GolangVersion := "" |}.


(** ** The collaborators of the client *)

(** [kubeApiCore.Pod], with the fields the client reads. *)
Record Pod := mkPod {
  Name : string;
  Namespace : string;
  Labels : gmap string string
}.

(** An [*http.Request] as [http.NewRequest] builds it. [Body = None] is the
    [nil] body. *)
Record Request := mkRequest {
  Method : string;
  URL : string;
  Body : option string
}.

(** The request [PodExec] posts to the [exec] subresource of a pod. *)
Record ExecRequest := mkExecRequest {
  execPod : string;
  execNamespace : string;
  execContainer : string;
  execCommand : string
}.

(** Locations of the store of [rest.Config] objects: Go pointers. A
    [rest.Config] is a struct; the fields of it that are pointers, maps or
    slices are values of the struct like the others, so a copy of the
    struct shares what they refer to. *)
Definition loc := positive.

(** What [req.Do(ctx)] followed by [res.Into(list)] can give:
    [res.Error() != nil], a failing [Into], or the items of the list. *)
Inductive ListResult (Err : Type) :=
| DoFailed (e : Err)
| IntoFailed (e : Err)
| Listed (items : list Pod).
Arguments DoFailed {Err} e.
Arguments IntoFailed {Err} e.
Arguments Listed {Err} items.

(** How a call ends: it returns, or it panics with a message. *)
Inductive Outcome (A : Type) :=
| Returns (a : A)
| Panics (msg : string).
Arguments Returns {A} a.
Arguments Panics {A} msg.

(** Everything [client.go] calls and does not define: the REST client of
    the cluster, the SPDY executor, the port forwarder, [net/http], and
    the constants it imports. [World] is the state of the cluster and of
    the network; an operation that talks to them takes a world and returns
    the next one. *)
Class Env := {
  World : Type;
  (** error values made by the collaborators, and their [Error()] text *)
  Err : Type;
  Error : Err -> string;
  Config : Type;
  Transports : Type;
  Executor : Type;
  Forwarder : Type;
  Response : Type;
  (** [label.IstioRev] of [istio.io/api/label] *)
  label_IstioRev : string;
  (** the [%q] verb of [fmt] *)
  fmt_q : string -> string;
  (** [restClient.Get().Resource("pods").Namespace(ns)] with the given
      query parameters, [Do] and [Into] *)
  pods_Do : string -> gmap string string -> World -> ListResult Err * World;
  (** [proxyGet(name, namespace, path, port).DoRaw(ctx)] *)
  proxy_DoRaw : string -> string -> string -> Z -> World -> (Err + string) * World;
  roundTripperFor : option Config -> Err + Transports;
  NewSPDYExecutor : Transports -> ExecRequest -> Err + Executor;
  (** [exec.Stream]: the contents of the two buffers and the error *)
  exec_Stream : Executor -> World -> (string * string * option Err) * World;
  newPortForwarder :
    option Config -> string -> string -> string -> Z -> Z -> World ->
    (Err + Forwarder) * World;
  fw_Start : Forwarder -> World -> option Err * World;
  fw_Address : Forwarder -> World -> string;
  fw_Close : Forwarder -> World -> World;
  (** the error of [http.NewRequest] for a method and a URL, if any *)
  http_NewRequest_err : string -> string -> option Err;
  http_Do : Request -> World -> (Err + Response) * World;
  ioutil_ReadAll : Response -> World -> (Err + string) * World;
  Body_Close : Response -> World -> World
}.

Section Client.

Context `{Env}.

(** *** Error values *)

(** A non-nil [error]: one a collaborator returned, one made by
    [errors.New] or [fmt.Errorf] (only its text matters), or a
    [*multierror.Error] with its list [Errors]. *)
#[warnings="-register-all"]
Inductive error :=
| extError (e : Err)
| errorString (msg : string)
| multiError (Errors : list error).

(** [multierror.Append(err, e)] of [github.com/hashicorp/go-multierror]
    for one appended error: a multi-error is extended, a nil one starts
    the list, any other error becomes its first element; an appended
    multi-error is flattened. *)
Definition multierror_Append (err : option error) (e : error) : error :=
  let es :=
    match e with
    | multiError l => l
    | _ => [e]
    end in
  match err with
  | Some (multiError l) => multiError (l ++ es)
  | Some other => multiError (other :: es)
  | None => multiError es
  end.

(** *** The state and the trace *)

(** The calls the client makes to its collaborators. *)
Inductive Event :=
| EvListPods (namespace : string) (params : gmap string string)
| EvProxyGet (name namespace path : string) (port : Z)
| EvExecStream (req : ExecRequest)
| EvNewPortForwarder (podName ns localAddress : string) (localPort podPort : Z)
| EvStart (fw : Forwarder)
| EvClose (fw : Forwarder)
| EvNewRequest (method url : string) (body : option string)
| EvHTTPDo (req : Request)
| EvReadAll (resp : Response)
| EvBodyClose (resp : Response).

Record State := mkState {
  world : World;
  heap : gmap loc Config;
  trace : list Event
}.

(** Computations of the client: state passing. *)
Definition M (A : Type) : Type := State -> A * State.

Definition ret {A} (a : A) : M A := fun st => (a, st).

Definition bind {A B} (m : M A) (k : A -> M B) : M B :=
  fun st => let (a, st') := m st in k a st'.

(** The state after one call [ev] that left the world [w]. *)
Definition after (st : State) (ev : Event) (w : World) : State :=
  {| world := w; heap := heap st; trace := trace st ++ [ev] |}.

(** [call ev f]: one call to a collaborator, written to the trace. *)
Definition call {A} (ev : Event) (f : World -> A * World) : M A :=
  fun st => let (a, w) := f (world st) in (a, after st ev w).

(** [defer d body]: [body] runs, then the deferred call [d], and the
    results of [body] are returned. *)
Definition defer {A} (d : M unit) (body : M A) : M A :=
  bind body (fun a => bind d (fun _ => ret a)).

End Client.

Arguments error {_}.
Arguments Event {_}.
Arguments State {_}.
Arguments M {_} A.

Notation "'let*' x ':=' m 'in' k" := (bind m (fun x => k))
  (at level 10, x name, m at level 100, k at level 200).

(** ** The client *)

(** The [client] struct: the pointer [config] and the [revision]. The
    other fields are clients of the cluster, which are part of [Env]. *)
Record client := mkClient {
  config : loc;
  revision : string
}.

Section Operations.

Context `{Env}.

(** The [rest.Config] that [c.config] points to, as the collaborators
    that are handed the pointer read it. *)
Definition configOf (c : client) (st : State) : option Config :=
  heap st !! config c.

(** [RESTConfig]: [cpy := *c.config; return &cpy]. The copy lives at a new
    location. [None] is the panic of dereferencing a pointer to nothing. *)
Definition RESTConfig (c : client) : M (option loc) :=
  fun st =>
    match heap st !! config c with
    | None => (None, st)
    | Some cfg =>
        let p := fresh (dom (heap st)) in
        (Some p, {| world := world st;
                    heap := <[p := cfg]> (heap st);
                    trace := trace st |})
    end.

(** An assignment through a [*rest.Config]: [*p = cfg]. *)
Definition storeConfig (p : loc) (cfg : Config) : M unit :=
  fun st =>
    (tt, {| world := world st;
            heap := <[p := cfg]> (heap st);
            trace := trace st |}).

(** [Revision]. *)
Definition Revision (c : client) : string := revision c.

(** The text put before the error in [PodExec]. *)
Definition execPrefix (podName podNamespace container : string) : string :=
  "error exec'ing into " +:+ podName +:+ "/" +:+ podNamespace +:+ " "
  +:+ container +:+ " container: ".

(** The deferred function of [PodExec], applied to the error [err] of the
    body (always one of a collaborator): a non-nil error is wrapped, first
    with the captured stderr when there is some, then once more. Each
    [%v] prints the [Error()] text of the error it is given. *)
Definition wrapExecError (podName podNamespace container stderr : string)
    (err : option Err) : option error :=
  match err with
  | None => None
  | Some e =>
      let text :=
        if (0 <? String.length stderr)%nat then
          execPrefix podName podNamespace container
          +:+ Error e +:+ String "010"%char "" +:+ stderr
        else Error e in
      Some (errorString (execPrefix podName podNamespace container +:+ text))
  end.

(** [PodExec]: the named results [(stdout, stderr, err)]. *)
Definition PodExec (c : client) (podName podNamespace container command : string)
    : M (string * string * option error) :=
  fun st =>
    let req := mkExecRequest podName podNamespace container command in
    let '(stdout, stderr, err, st') :=
      match roundTripperFor (configOf c st) with
      | inl err => ("", "", Some err, st)
      | inr tr =>
          match NewSPDYExecutor tr req with
          | inl err => ("", "", Some err, st)
          | inr exec =>
              let '(r, st') := call (EvExecStream req) (exec_Stream exec) st in
              let '(stdoutBuf, stderrBuf, err) := r in
              (stdoutBuf, stderrBuf, err, st')
          end
      end in
    (stdout, stderr, wrapExecError podName podNamespace container stderr err, st').

(** [NewPortForwarder]. *)
Definition NewPortForwarder (c : client) (podName ns localAddress : string)
    (localPort podPort : Z) : M (Err + Forwarder) :=
  fun st =>
    call (EvNewPortForwarder podName ns localAddress localPort podPort)
         (newPortForwarder (configOf c st) podName ns localAddress localPort podPort)
         st.

(** [formatError] of [EnvoyDo]. *)
Definition formatError (err : Err) : error :=
  errorString ("failure running port forward process: " +:+ Error err).

(** The method of a request: [http.NewRequest] reads the empty method as
    ["GET"]. *)
Definition methodOrGet (method : string) : string :=
  if decide (method = "") then "GET" else method.

(** [http.NewRequest(method, url, body)]: the method is completed, then
    the method and the URL are checked. The event holds the arguments as
    they were given. *)
Definition http_NewRequest (method url : string) (body : option string)
    : M (Err + Request) :=
  fun st =>
    (match http_NewRequest_err (methodOrGet method) url with
     | Some err => inl err
     | None => inr (mkRequest (methodOrGet method) url body)
     end,
     {| world := world st; heap := heap st;
        trace := trace st ++ [EvNewRequest method url body] |}).

(** [closeQuietly(resp.Body)]. *)
Definition closeQuietly (resp : Response) : M unit :=
  call (EvBodyClose resp) (fun w => (tt, Body_Close resp w)).

(** [fw.Close()]. *)
Definition fwClose (fw : Forwarder) : M unit :=
  call (EvClose fw) (fun w => (tt, fw_Close fw w)).

(** [EnvoyDo]. The last argument is the body parameter, which the Go
    function names [_]. *)
Definition EnvoyDo (c : client) (podName podNamespace method path : string)
    (_ : string) : M (string * option error) :=
  let* r := NewPortForwarder c podName podNamespace "127.0.0.1" 0 15000 in
  match r with
  | inl err => ret ("", Some (extError err))
  | inr fw =>
      let* e := call (EvStart fw) (fw_Start fw) in
      match e with
      | Some err => ret ("", Some (formatError err))
      | None =>
          defer (fwClose fw)
            (let* addr := (fun st => (fw_Address fw (world st), st)) in
             let* rq := http_NewRequest method
                          ("http://" +:+ addr +:+ "/" +:+ path) None in
             match rq with
             | inl err => ret ("", Some (formatError err))
             | inr req =>
                 let* rs := call (EvHTTPDo req) (http_Do req) in
                 match rs with
                 | inl err => ret ("", Some (formatError err))
                 | inr resp =>
                     defer (closeQuietly resp)
                       (let* o := call (EvReadAll resp) (ioutil_ReadAll resp) in
                        match o with
                        | inl err => ret ("", Some (formatError err))
                        | inr out => ret (out, None)
                        end)
                 end
             end)
      end
  end.

(** [proxyGet(name, namespace, path, port).DoRaw(ctx)]: the request to the
    proxy subresource of a pod is built and run. *)
Definition proxyGet_DoRaw (name namespace path : string) (port : Z)
    : M (Err + string) :=
  call (EvProxyGet name namespace path port) (proxy_DoRaw name namespace path port).

(** What [%v] prints for an [error]: its [Error()] text, and ["<nil>"]
    for the nil error. *)
Definition fmt_v (err : option Err) : string :=
  match err with
  | Some e => Error e
  | None => "<nil>"
  end.

(** [res.Error()] for the result [res] of [req.Do(ctx)]. *)
Definition resError (res : ListResult Err) : option Err :=
  match res with
  | DoFailed e => Some e
  | IntoFailed _ | Listed _ => None
  end.

(** [res.Into(list)]: the error, and [list.Items] afterwards. *)
Definition resInto (res : ListResult Err) : option Err * list Pod :=
  match res with
  | DoFailed e | IntoFailed e => (Some e, [])
  | Listed items => (None, items)
  end.

(** The writes of [GetIstioPods] (lines 341-348) into a map that is not
    nil: the contents [params] of the map become these. *)
Definition revisionParams (c : client) (params : gmap string string)
    : gmap string string :=
  if decide (revision c = "") then params
  else
    match params !! "labelSelector" with
    | Some labelSelector =>
        <["labelSelector" :=
            labelSelector +:+ "," +:+ label_IstioRev +:+ "=" +:+ revision c]> params
    | None =>
        <["labelSelector" := label_IstioRev +:+ "=" +:+ revision c]> params
    end.

(** Lines 341-348 for any map value ([None] is the nil map). Without a
    revision nothing is written. With one, the entry is looked up, which
    a nil map allows, and written, which panics on a nil map. The result
    is the map as the caller sees it afterwards: the writes are made in
    the caller's map. *)
Definition writeRevision (c : client) (params : option (gmap string string))
    : Outcome (option (gmap string string)) :=
  match params with
  | Some m => Returns (Some (revisionParams c m))
  | None =>
      if decide (revision c = "") then Returns None
      else Panics "assignment to entry in nil map"
  end.

(** Lines 350-365 of [GetIstioPods]: the list query with the parameters
    [params], and the decoding of its result. A nil slice is the empty
    list. *)
Definition listPods (c : client) (namespace : string)
    (params : gmap string string) : M (list Pod * option error) :=
  let* res := call (EvListPods namespace params) (pods_Do namespace params) in
  match resError res with
  | Some _ =>
      ret ([], Some (errorString ("unable to retrieve Pods: " +:+ fmt_v (resError res))))
  | None =>
      match resInto res with
      | (Some _, _) =>
          ret ([], Some (errorString ("unable to parse PodList: "
                                      +:+ fmt_v (resError res))))
      | (None, items) => ret (items, None)
      end
  end.

(** [GetIstioPods] for any map value: how the call ends, and the map of
    the caller after the call. Ranging over a nil map is ranging over no
    entry. A panic happens before anything is sent. *)
Definition GetIstioPods (c : client) (namespace : string)
    (params : option (gmap string string))
    : M (Outcome (list Pod * option error) * option (gmap string string)) :=
  match writeRevision c params with
  | Panics msg => ret (Panics msg, params)
  | Returns params' =>
      let* r := listPods c namespace (default ∅ params') in
      ret (Returns r, params')
  end.

(** [c.GetIstioPods(ctx, namespace, map[string]string{...})]: the call on
    a map that is not nil and that the caller does not use again, with
    the contents [params]. Such a call cannot panic; this is what it
    returns (see [GetIstioPods_of_map]). *)
Definition GetIstioPodsOfMap (c : client) (namespace : string)
    (params : gmap string string) : M (list Pod * option error) :=
  listPods c namespace (revisionParams c params).

(** [len(b) > 0] for a byte slice. *)
Definition nonEmpty (b : string) : bool := (0 <? String.length b)%nat.

(** The [for _, pilot := range pilots] loop of [AllDiscoveryDo], with the
    [return result, err] that follows it; the outer [err] is nil there. *)
Fixpoint discoveryLoop (pilots : list Pod) (path : string)
    (result : gmap string string) : M (gmap string string * option error) :=
  match pilots with
  | [] => ret (result, None)
  | pilot :: rest =>
      let* r := proxyGet_DoRaw (Name pilot) (Namespace pilot) path 8080 in
      match r with
      | inl err => ret (∅, Some (extError err))
      | inr res =>
          discoveryLoop rest path
            (if nonEmpty res then <[Name pilot := res]> result else result)
      end
  end.

(** The parameters [AllDiscoveryDo] resolves the discovery pods with. *)
Definition pilotParams : gmap string string :=
  {[ "labelSelector" := "app=istiod"; "fieldSelector" := "status.phase=Running" ]}.

(** [AllDiscoveryDo]. A nil map is the empty map. *)
Definition AllDiscoveryDo (c : client) (pilotNamespace path : string)
    : M (gmap string string * option error) :=
  let* r := GetIstioPodsOfMap c pilotNamespace pilotParams in
  match r with
  | (_, Some err) => ret (∅, Some err)
  | (pilots, None) =>
      if (length pilots =? 0)%nat then
        ret (∅, Some (errorString "unable to find any Pilot instances"))
      else discoveryLoop pilots path ∅
  end.

(** The [ServerInfo] appended for a pod whose probe returned [result]. *)
Definition serverOf (pod : Pod) (result : string) : ServerInfo :=
  {| Component := default "" (Labels pod !! "istio");
     Info := parseVersion result |}.

(** The error recorded for a pod whose probe failed. *)
Definition probeError (pod : Pod) (err : Err) : error :=
  errorString ("error port-forewarding into " +:+ Name pod +:+ " : " +:+ Error err).

(** The [for _, pod := range pods] loop of [GetIstioVersions], with the
    variables [errs] and [res] it updates. *)
Fixpoint versionsLoop (pods : list Pod) (errs : option error) (res : MeshInfo)
    : M (MeshInfo * option error) :=
  match pods with
  | [] => ret (res, errs)
  | pod :: rest =>
      let* r := proxyGet_DoRaw (Name pod) (Namespace pod) "/version" 15014 in
      match r with
      | inl err =>
          versionsLoop rest (Some (multierror_Append errs (probeError pod err))) res
      | inr result =>
          if nonEmpty result then versionsLoop rest errs (res ++ [serverOf pod result])
          else versionsLoop rest errs res
      end
  end.

(** The parameters [GetIstioVersions] resolves the Istio pods with. *)
Definition istioParams : gmap string string :=
  {[ "labelSelector" :=
       "istio,istio!=ingressgateway,istio!=egressgateway,istio!=ilbgateway";
     "fieldSelector" := "status.phase=Running" ]}.

(** [GetIstioVersions]. The [*version.MeshInfo] is [None] when nil. *)
Definition GetIstioVersions (c : client) (namespace : string)
    : M (option MeshInfo * option error) :=
  let* r := GetIstioPodsOfMap c namespace istioParams in
  match r with
  | (_, Some err) => ret (None, Some err)
  | (pods, None) =>
      if (length pods =? 0)%nat then
        ret (None, Some (errorString ("no running Istio pods in " +:+ fmt_q namespace)))
      else
        let* out := versionsLoop pods None [] in
        ret (Some (fst out), snd out)
  end.

(** *** The answers of the cluster to a fan-out *)

(** What the cluster answers when the pods of [pods] are probed one after
    the other from the world [w], each with its pod. *)
Fixpoint probeAll (path : string) (port : Z) (pods : list Pod) (w : World)
    : list (Pod * (Err + string)) :=
  match pods with
  | [] => []
  | pod :: rest =>
      let (r, w') := proxy_DoRaw (Name pod) (Namespace pod) path port w in
      (pod, r) :: probeAll path port rest w'
  end.

(** The world after these probes. *)
Fixpoint probeWorld (path : string) (port : Z) (pods : list Pod) (w : World)
    : World :=
  match pods with
  | [] => w
  | pod :: rest =>
      probeWorld path port rest
        (snd (proxy_DoRaw (Name pod) (Namespace pod) path port w))
  end.

(** The trace of these probes. *)
Definition probeEvents (path : string) (port : Z) (pods : list Pod)
    : list Event :=
  map (fun pod => EvProxyGet (Name pod) (Namespace pod) path port) pods.

(** The state after the pods of [pods] were probed from [st]. *)
Definition probed (path : string) (port : Z) (pods : list Pod) (st : State)
    : State :=
  {| world := probeWorld path port pods (world st);
     heap := heap st;
     trace := trace st ++ probeEvents path port pods |}.

(** [multierror.Append] over a list of errors, as the loop applies it. *)
Definition appendAll (errs : option error) (es : list error) : option error :=
  fold_left (fun acc e => Some (multierror_Append acc e)) es errs.

(** An event that is not the closing of a forwarder. *)
Definition notClose (ev : Event) : Prop :=
  match ev with
  | EvClose _ => False
  | _ => True
  end.

(** An event that carries no request body: a request built or sent has
    the nil body. *)
Definition nilBody (ev : Event) : Prop :=
  match ev with
  | EvNewRequest _ _ body => body = None
  | EvHTTPDo req => Body req = None
  | _ => True
  end.

(** The state [st] with the store of configurations [h]. *)
Definition withHeap (h : gmap loc Config) (st : State) : State :=
  {| world := world st; heap := h; trace := trace st |}.

(** A probe that succeeded. *)
Definition succeeded (pr : Pod * (Err + string)) : Prop :=
  exists b, snd pr = inr b.

(** The entries of the answers that are successes with a payload, as
    [ServerInfo]s. *)
Definition contributions (prs : list (Pod * (Err + string))) : MeshInfo :=
  flat_map (fun pr =>
              match snd pr with
              | inr b => if nonEmpty b then [serverOf (fst pr) b] else []
              | inl _ => []
              end) prs.

(** The errors recorded for the answers that are failures. *)
Definition failures (prs : list (Pod * (Err + string))) : list error :=
  flat_map (fun pr =>
              match snd pr with
              | inl err => [probeError (fst pr) err]
              | inr _ => []
              end) prs.

(** The successes with a payload, stored under the name of their pod,
    added to [m] in order. *)
Definition collect (prs : list (Pod * (Err + string)))
    (m : gmap string string) : gmap string string :=
  fold_left (fun m pr =>
               match snd pr with
               | inr b => if nonEmpty b then <[Name (fst pr) := b]> m else m
               | inl _ => m
               end) prs m.

(** The combined error of a list of recorded errors: nil when there is
    none. *)
Definition combined (errs : list error) : option error :=
  match errs with
  | [] => None
  | _ => Some (multiError errs)
  end.

End Operations.

(** ** The rest of the client: logs, selectors and YAML files

    [PodLogs], [PodsForSelector] and the four YAML operations talk to
    collaborators of their own (the typed clientset, the file system and
    the [util.Factory] of kubectl). They are the fields of [Tools]; the
    calls made to them are written to a trace of [OpEvent]s. *)

(** [kubeApiCore.PodLogOptions], with the fields [PodLogs] sets. *)
Record PodLogOptions := mkPodLogOptions {
  Container : string;
  Previous : bool
}.

(** [util.DryRunStrategy] of kubectl. *)
Inductive DryRunStrategy := DryRunNone | DryRunClient | DryRunServer.

(** The objects the factory and the clientset hand out. *)
Class Handles := {
  LogStream : Type;
  DynamicClient : Type;
  DiscoveryClient : Type;
  Schema : Type;
  Validator : Type;
  Builder : Type;
  RESTMapper : Type;
  BuildResult : Type
}.

Section Options.

Context `{Handles}.

(** The fields of [apply.ApplyOptions] that [applyYAMLFile] sets. The
    printer and the post-processor it installs are functions of these
    options alone. *)
Record ApplyOptions := mkApplyOptions {
  aoDynamicClient : DynamicClient;
  aoDryRunVerifier : DynamicClient * DiscoveryClient;
  aoFieldManager : string;
  aoDryRunStrategy : DryRunStrategy;
  aoNamespace : string;
  aoEnforceNamespace : bool;
  aoFilenames : list string;
  aoOpenAPISchema : option Schema;
  aoValidator : Validator;
  aoBuilder : Builder;
  aoMapper : RESTMapper
}.

(** The fields of [kubectlDelete.DeleteOptions] that [deleteFile] sets. *)
Record DeleteOptions := mkDeleteOptions {
  doFilenames : list string;
  doCascade : bool;
  doGracePeriod : Z;
  doIgnoreNotFound : bool;
  doWaitForDeletion : bool;
  doWarnClusterScope : bool;
  doDynamicClient : DynamicClient;
  doDryRunVerifier : DynamicClient * DiscoveryClient;
  doDryRunStrategy : DryRunStrategy;
  doResult : BuildResult;
  doMapper : RESTMapper
}.

End Options.

(** What the operations of this part call. A run of kubectl returns its
    error with what it wrote to the two test streams. *)
Class Tools `{Env} `{Handles} := {
  (** [c.CoreV1().Pods(ns).GetLogs(name, opts).Stream(ctx)] *)
  logs_Stream :
    string -> string -> PodLogOptions -> World -> (Err + LogStream) * World;
  (** [io.Copy(builder, res)]: what the builder holds afterwards, and the
      error *)
  io_Copy : LogStream -> World -> (string * option Err) * World;
  stream_Close : LogStream -> World -> World;
  (** [c.CoreV1().Pods(ns).List(ctx, ListOptions{LabelSelector: s})]: the
      pointer to the list (its items) and the error *)
  pods_List :
    string -> string -> World -> (option (list Pod) * option Err) * World;
  (** [os.Stat(f)]: the error, or the size of the file *)
  os_Stat : string -> World -> Err + Z;
  factory_DynamicClient : World -> (Err + DynamicClient) * World;
  factory_ToDiscoveryClient : World -> (Err + DiscoveryClient) * World;
  (** [ToRawKubeConfigLoader().Namespace()] *)
  factory_Namespace : World -> (string * bool * option Err) * World;
  (** [OpenAPISchema()], nil on error *)
  factory_OpenAPISchema : World -> option Schema * World;
  factory_Validator : bool -> World -> (Err + Validator) * World;
  factory_NewBuilder : Builder;
  factory_ToRESTMapper : World -> (Err + RESTMapper) * World;
  (** [opts.Run()] *)
  apply_Run : ApplyOptions -> World -> (option Err * string * string) * World;
  (** [NewBuilder().Unstructured()...Flatten().Do()] for a namespace, the
      enforce flag and the file names *)
  builder_Do : string -> bool -> list string -> World -> BuildResult * World;
  (** [r.Err()] *)
  result_Err : BuildResult -> option Err;
  (** [opts.RunDelete(factory)] *)
  delete_RunDelete :
    DeleteOptions -> World -> (option Err * string * string) * World
}.

Section Tooling.

Context `{Tools}.

(** The calls these operations make. *)
Inductive OpEvent :=
| OpLogsStream (ns pod : string) (opts : PodLogOptions)
| OpCopy (s : LogStream)
| OpStreamClose (s : LogStream)
| OpPodsList (ns labelSelector : string)
| OpDynamicClient
| OpToDiscoveryClient
| OpNamespace
| OpOpenAPISchema
| OpValidator (validate : bool)
| OpToRESTMapper
| OpApplyRun (o : ApplyOptions)
| OpBuilderDo (ns : string) (enforce : bool) (files : list string)
| OpRunDelete (o : DeleteOptions).

Record OpState := mkOpState {
  opWorld : World;
  opTrace : list OpEvent
}.

(** Computations over the world and the trace of [OpEvent]s. *)
Definition Op (A : Type) : Type := OpState -> A * OpState.

Definition opRet {A} (a : A) : Op A := fun st => (a, st).

Definition opBind {A B} (m : Op A) (k : A -> Op B) : Op B :=
  fun st => let (a, st') := m st in k a st'.

(** The state after one call [ev] that left the world [w]. *)
Definition opAfter (st : OpState) (ev : OpEvent) (w : World) : OpState :=
  {| opWorld := w; opTrace := opTrace st ++ [ev] |}.

Definition opCall {A} (ev : OpEvent) (f : World -> A * World) : Op A :=
  fun st => let (a, w) := f (opWorld st) in (a, opAfter st ev w).

(** [defer d] around [body], as in [defer]. *)
Definition opDefer {A} (d : Op unit) (body : Op A) : Op A :=
  opBind body (fun a => opBind d (fun _ => opRet a)).

End Tooling.

Notation "'let+' x ':=' m 'in' k" := (opBind m (fun x => k))
  (at level 10, x name, m at level 100, k at level 200).

Section ToolOperations.

Context `{Tools}.

(** [PodLogs]. *)
Definition PodLogs (c : client) (podName podNamespace container : string)
    (previousLog : bool) : Op (string * option error) :=
  let opts := mkPodLogOptions container previousLog in
  let+ r := opCall (OpLogsStream podNamespace podName opts)
              (logs_Stream podNamespace podName opts) in
  match r with
  | inl err => opRet ("", Some (extError err))
  | inr res =>
      opDefer (opCall (OpStreamClose res) (fun w => (tt, stream_Close res w)))
        (let+ cp := opCall (OpCopy res) (io_Copy res) in
         match cp with
         | (_, Some err) => opRet ("", Some (extError err))
         | (text, None) => opRet (text, None)
         end)
  end.

(** [PodsForSelector]: what [List] returns, as it is. *)
Definition PodsForSelector (c : client) (namespace : string)
    (labelSelectors : list string) : Op (option (list Pod) * option error) :=
  let+ r := opCall (OpPodsList namespace (strings.Join labelSelectors ","))
              (pods_List namespace (strings.Join labelSelectors ",")) in
  opRet (fst r, option_map extError (snd r)).

(** [isEmptyFile]. *)
Definition isEmptyFile (f : string) (w : World) : bool :=
  match os_Stat f w with
  | inl _ => true
  | inr size => if (size =? 0)%Z then true else false
  end.

(** [removeEmptyFiles]. *)
Fixpoint removeEmptyFiles (files : list string) (w : World) : list string :=
  match files with
  | [] => []
  | f :: rest =>
      if isEmptyFile f w then removeEmptyFiles rest w
      else f :: removeEmptyFiles rest w
  end.

(** [fieldManager]. *)
Definition fieldManager : string := "istio-kube-client".

(** The error of a failed run of kubectl: [fmt.Errorf("%v: %s", err, s)]
    with [s] the two streams, stdout first. *)
Definition runError (err : Err) (stdout stderr : string) : error :=
  errorString (Error err +:+ ": " +:+ (stdout +:+ stderr)).

(** [applyYAMLFile]. *)
Definition applyYAMLFile (c : client) (namespace : string) (dryRun : bool)
    (file : string) : Op (option error) :=
  let+ d := opCall OpDynamicClient factory_DynamicClient in
  match d with
  | inl err => opRet (Some (extError err))
  | inr dynamicClient =>
    let+ dc := opCall OpToDiscoveryClient factory_ToDiscoveryClient in
    match dc with
    | inl err => opRet (Some (extError err))
    | inr discoveryClient =>
      let strategy := if dryRun then DryRunServer else DryRunNone in
      let+ nsr :=
        (if (0 <? String.length namespace)%nat then opRet (namespace, true, None)
         else opCall OpNamespace factory_Namespace) in
      match nsr with
      | (_, _, Some err) => opRet (Some (extError err))
      | (ns, enforce, None) =>
        let+ schema := opCall OpOpenAPISchema factory_OpenAPISchema in
        let+ v := opCall (OpValidator true) (factory_Validator true) in
        match v with
        | inl err => opRet (Some (extError err))
        | inr validator =>
          let+ m := opCall OpToRESTMapper factory_ToRESTMapper in
          match m with
          | inl err => opRet (Some (extError err))
          | inr mapper =>
            let opts :=
              {| aoDynamicClient := dynamicClient;
                 aoDryRunVerifier := (dynamicClient, discoveryClient);
                 aoFieldManager := fieldManager;
                 aoDryRunStrategy := strategy;
                 aoNamespace := ns;
                 aoEnforceNamespace := enforce;
                 aoFilenames := [file];
                 aoOpenAPISchema := schema;
                 aoValidator := validator;
                 aoBuilder := factory_NewBuilder;
                 aoMapper := mapper |} in
            let+ run := opCall (OpApplyRun opts) (apply_Run opts) in
            match run with
            | (Some err, stdout, stderr) => opRet (Some (runError err stdout stderr))
            | (None, _, _) => opRet None
            end
          end
        end
      end
    end
  end.

(** The loop of [ApplyYAMLFiles] and of [ApplyYAMLFilesDryRun]. *)
Fixpoint applyLoop (c : client) (namespace : string) (dryRun : bool)
    (files : list string) : Op (option error) :=
  match files with
  | [] => opRet None
  | f :: rest =>
      let+ err := applyYAMLFile c namespace dryRun f in
      match err with
      | Some e => opRet (Some e)
      | None => applyLoop c namespace dryRun rest
      end
  end.

(** [ApplyYAMLFiles]. The files are filtered before the first is applied. *)
Definition ApplyYAMLFiles (c : client) (namespace : string)
    (yamlFiles : list string) : Op (option error) :=
  fun st => applyLoop c namespace false (removeEmptyFiles yamlFiles (opWorld st)) st.

(** [ApplyYAMLFilesDryRun]. *)
Definition ApplyYAMLFilesDryRun (c : client) (namespace : string)
    (yamlFiles : list string) : Op (option error) :=
  fun st => applyLoop c namespace true (removeEmptyFiles yamlFiles (opWorld st)) st.

(** [deleteFile]. *)
Definition deleteFile (c : client) (namespace : string) (dryRun : bool)
    (file : string) : Op (option error) :=
  let+ nsr := opCall OpNamespace factory_Namespace in
  match nsr with
  | (_, _, Some err) => opRet (Some (extError err))
  | (ns0, enforce0, None) =>
    let cmdNamespace := if (0 <? String.length namespace)%nat then namespace else ns0 in
    let enforceNamespace := if (0 <? String.length namespace)%nat then true else enforce0 in
    let+ d := opCall OpDynamicClient factory_DynamicClient in
    match d with
    | inl err => opRet (Some (extError err))
    | inr dynamicClient =>
      let+ dc := opCall OpToDiscoveryClient factory_ToDiscoveryClient in
      match dc with
      | inl err => opRet (Some (extError err))
      | inr discoveryClient =>
        let+ r := opCall (OpBuilderDo cmdNamespace enforceNamespace [file])
                    (builder_Do cmdNamespace enforceNamespace [file]) in
        match result_Err r with
        | Some err => opRet (Some (extError err))
        | None =>
          let+ m := opCall OpToRESTMapper factory_ToRESTMapper in
          match m with
          | inl err => opRet (Some (extError err))
          | inr mapper =>
            let opts :=
              {| doFilenames := [file];
                 doCascade := true;
                 doGracePeriod := (-1)%Z;
                 doIgnoreNotFound := true;
                 doWaitForDeletion := true;
                 doWarnClusterScope := enforceNamespace;
                 doDynamicClient := dynamicClient;
                 doDryRunVerifier := (dynamicClient, discoveryClient);
                 doDryRunStrategy := if dryRun then DryRunServer else DryRunNone;
                 doResult := r;
                 doMapper := mapper |} in
            let+ run := opCall (OpRunDelete opts) (delete_RunDelete opts) in
            match run with
            | (Some err, stdout, stderr) => opRet (Some (runError err stdout stderr))
            | (None, _, _) => opRet None
            end
          end
        end
      end
    end
  end.

(** [multierror.Append(err, e)] when the appended error may be nil: a
    nil error is not appended. *)
Definition multierror_AppendNilable (err e : option error) : error :=
  match e with
  | Some e' => multierror_Append err e'
  | None =>
      match err with
      | Some (multiError l) => multiError l
      | Some other => multiError [other]
      | None => multiError []
      end
  end.

(** [ErrorOrNil] of a [multierror.Error]: nil when the list is empty. *)
Definition ErrorOrNil (e : error) : option error :=
  match e with
  | multiError [] => None
  | _ => Some e
  end.

(** The loop of [DeleteYAMLFiles] and of [DeleteYAMLFilesDryRun], with the
    named result [err] it updates. *)
Fixpoint deleteLoop (c : client) (namespace : string) (dryRun : bool)
    (files : list string) (err : option error) : Op (option error) :=
  match files with
  | [] => opRet err
  | f :: rest =>
      let+ e := deleteFile c namespace dryRun f in
      deleteLoop c namespace dryRun rest
        (ErrorOrNil (multierror_AppendNilable err e))
  end.

(** [DeleteYAMLFiles]. *)
Definition DeleteYAMLFiles (c : client) (namespace : string)
    (yamlFiles : list string) : Op (option error) :=
  fun st =>
    deleteLoop c namespace false (removeEmptyFiles yamlFiles (opWorld st)) None st.

(** [DeleteYAMLFilesDryRun]. *)
Definition DeleteYAMLFilesDryRun (c : client) (namespace : string)
    (yamlFiles : list string) : Op (option error) :=
  fun st =>
    deleteLoop c namespace true (removeEmptyFiles yamlFiles (opWorld st)) None st.

(** *** The runs of a loop over files *)

(** The results of [step] on the files of [files], one after the other
    from [st]. *)
Fixpoint resultsAll (step : string -> Op (option error)) (files : list string)
    (st : OpState) : list (option error) :=
  match files with
  | [] => []
  | f :: rest => fst (step f st) :: resultsAll step rest (snd (step f st))
  end.

(** The state after them. *)
Fixpoint afterAll (step : string -> Op (option error)) (files : list string)
    (st : OpState) : OpState :=
  match files with
  | [] => st
  | f :: rest => afterAll step rest (snd (step f st))
  end.

(** The strategy of a run. *)
Definition strategyOf (dryRun : bool) : DryRunStrategy :=
  if dryRun then DryRunServer else DryRunNone.

(** What [applyYAMLFile] may call for the files of [files]: the factory,
    and a run of apply on one of the files, with the strategy of
    [dryRun]; nothing of a deletion, of logs or of pod lists. *)
Definition applyEventOk (dryRun : bool) (files : list string) (ev : OpEvent)
    : Prop :=
  match ev with
  | OpApplyRun o =>
      aoDryRunStrategy o = strategyOf dryRun
      /\ aoFieldManager o = fieldManager
      /\ exists f, aoFilenames o = [f] /\ f ∈ files
  | OpDynamicClient | OpToDiscoveryClient | OpNamespace | OpOpenAPISchema
  | OpValidator _ | OpToRESTMapper => True
  | _ => False
  end.

(** What [deleteFile] may call for the files of [files]. *)
Definition deleteEventOk (dryRun : bool) (files : list string) (ev : OpEvent)
    : Prop :=
  match ev with
  | OpRunDelete o =>
      doDryRunStrategy o = strategyOf dryRun
      /\ exists f, doFilenames o = [f] /\ f ∈ files
  | OpBuilderDo _ _ fs => exists f, fs = [f] /\ f ∈ files
  | OpDynamicClient | OpToDiscoveryClient | OpNamespace | OpToRESTMapper => True
  | _ => False
  end.

(** An error that is not a multi-error. *)
Definition plain (e : error) : Prop :=
  match e with
  | multiError _ => False
  | _ => True
  end.

End ToolOperations.

(** ** The request of [proxyGet]

    [proxyGet] builds a request with the setters of [rest.Request]; the
    request is modelled by the arguments the setters were given. The
    parser of [net/url] is a collaborator: it gives the path and the
    values of the query of a URL, or an error. *)

Record ProxyRequest := mkProxyRequest {
  prVerb : string;
  prNamespace : string;
  prResource : string;
  prSubResource : string;
  prName : string;
  prSuffix : string;
  prParams : gmap string (list string)
}.

Class URLParser `{Env} := {
  (** [url.Parse(s)], with [Path] and [Query()] of the result *)
  url_Parse : string -> Err + (string * gmap string (list string))
}.

Section ProxyGet.

Context `{URLParser}.

(** [request.Param(key, val)]: the value is appended to those of the key. *)
Definition Param (key val : string) (r : ProxyRequest) : ProxyRequest :=
  {| prVerb := prVerb r;
     prNamespace := prNamespace r;
     prResource := prResource r;
     prSubResource := prSubResource r;
     prName := prName r;
     prSuffix := prSuffix r;
     prParams := <[key := default [] (prParams r !! key) ++ [val]]> (prParams r) |}.

(** The inner loop [for _, val := range vals]. *)
Definition paramValues (key : string) (vals : list string) (r : ProxyRequest)
    : ProxyRequest :=
  fold_left (fun r val => Param key val r) vals r.

(** The outer loop [for key, vals := range pathURL.Query()], for the order
    [kvs] in which the map is ranged over. *)
Definition paramQuery (kvs : list (string * list string)) (r : ProxyRequest)
    : ProxyRequest :=
  fold_left (fun r kv => paramValues (fst kv) (snd kv) r) kvs r.

(** The request before the query parameters are added. *)
Definition proxyBase (name namespace : string) (port : Z) (suffix : string)
    : ProxyRequest :=
  {| prVerb := "GET";
     prNamespace := namespace;
     prResource := "pods";
     prSubResource := "proxy";
     prName := name +:+ ":" +:+ pretty port;
     prSuffix := suffix;
     prParams := ∅ |}.

(** [proxyGet]: the request, and the lines written to the error log. *)
Definition proxyGet (c : client) (name namespace path : string) (port : Z)
    : ProxyRequest * list string :=
  let '(pathURL, logged) :=
    match url_Parse path with
    | inl err =>
        ((path, ∅),
         ["failed to parse path " +:+ path +:+ ": " +:+ Error err])
    | inr u => (u, [])
    end in
  (paramQuery (map_to_list (snd pathURL))
     (proxyBase name namespace port (fst pathURL)),
   logged).

End ProxyGet.

(** ** A small cluster

    A concrete [Env]: the namespace [istio-system] has three pods, of
    which [istiod-a] answers a probe with a version, [istiod-b] fails and
    [istiod-c] answers with nothing; in [down] every pod fails;
    [healthy] has [istiod-a] and [istiod-c]; in [broken] the list query
    fails; any other namespace has no pod. Worlds count the calls made. *)

Module Demo.

Definition podA : Pod := mkPod "istiod-a" "istio-system" {[ "istio" := "pilot" ]}.
Definition podB : Pod := mkPod "istiod-b" "istio-system" {[ "istio" := "pilot" ]}.
Definition podC : Pod := mkPod "istiod-c" "istio-system" {[ "app" := "istiod" ]}.

(** The version payload of [istiod-a]. *)
Definition payloadA : string := "1.7-alpha.9c900ba-9c900ba74d10a1-Clean".

Definition quote (s : string) : string :=
  String "034"%char s +:+ String "034"%char "".

Definition list_pods (ns : string) (_ : gmap string string) (w : nat)
    : ListResult string * nat :=
  (if String.eqb ns "istio-system" then Listed [podA; podB; podC]
   else if String.eqb ns "down" then Listed [podB; podB]
   else if String.eqb ns "healthy" then Listed [podA; podC]
   else if String.eqb ns "broken" then DoFailed "connection refused"
   else Listed [],
   S w).

Definition do_raw (name _ _ : string) (_ : Z) (w : nat)
    : (string + string) * nat :=
  (if String.eqb name "istiod-a" then inr payloadA
   else if String.eqb name "istiod-b" then inl "dial tcp: i/o timeout"
   else inr "",
   S w).

Definition stream (req : ExecRequest) (w : nat)
    : (string * string * option string) * nat :=
  (if String.eqb (execCommand req) "true" then ("", "", None)
   else ("", "sh: 1: pilot-agent: not found",
         Some "command terminated with exit code 127"),
   S w).

#[export] Instance env : Env := {|
  World := nat;
  Err := string;
  Error := fun e => e;
  Config := string;
  Transports := unit;
  Executor := ExecRequest;
  Forwarder := string;
  Response := string;
  label_IstioRev := "istio.io/rev";
  fmt_q := quote;
  pods_Do := list_pods;
  proxy_DoRaw := do_raw;
  roundTripperFor := fun cfg =>
    match cfg with Some _ => inr tt | None => inl "no configuration" end;
  NewSPDYExecutor := fun _ req => inr req;
  exec_Stream := stream;
  newPortForwarder := fun _ podName _ _ _ _ w => (inr podName, S w);
  fw_Start := fun _ w => (None, S w);
  fw_Address := fun _ _ => "127.0.0.1:40123";
  fw_Close := fun _ w => S w;
  http_NewRequest_err := fun method _ =>
    if String.eqb method "GET" then None else Some "net/http: invalid method";
  http_Do := fun req w =>
    (if String.eqb (URL req) "http://127.0.0.1:40123/stats" then inr "server.live: 1"
     else inl "connection reset by peer",
     S w);
  ioutil_ReadAll := fun resp w => (inr resp, S w);
  Body_Close := fun _ w => S w
|}.

(** A client whose configuration is at location 1, and a first state. *)
Definition c0 : client := mkClient 1%positive "".
Definition c1 : client := mkClient 1%positive "canary".
Definition st0 : State := mkState (0%nat : World) {[ 1%positive := "https://cluster" ]} [].

End Demo.

(** ** A cluster in trouble

    The same cluster with other answers: the namespace [quiet] has the
    one pod [istiod-c], which answers with nothing; the list of [garbled]
    cannot be decoded and the one of any other namespace cannot be
    retrieved; no forwarder can be made to the pod [gone], and the one to
    [busy] does not start. *)

Module Trouble.

Definition list_pods (ns : string) (_ : gmap string string) (w : nat)
    : ListResult string * nat :=
  (if String.eqb ns "quiet" then Listed [Demo.podC]
   else if String.eqb ns "garbled" then IntoFailed "unexpected end of JSON input"
   else DoFailed "connection refused",
   S w).

Definition new_forwarder (_ : option string) (podName _ _ : string) (_ _ : Z)
    (w : nat) : (string + string) * nat :=
  (if String.eqb podName "gone" then inl "pod gone not found" else inr podName,
   S w).

Definition start (fw : string) (w : nat) : option string * nat :=
  (if String.eqb fw "busy" then Some "unable to listen on any port" else None,
   S w).

#[export] Instance env : Env := {|
  World := nat;
  Err := string;
  Error := fun e => e;
  Config := string;
  Transports := unit;
  Executor := ExecRequest;
  Forwarder := string;
  Response := string;
  label_IstioRev := "istio.io/rev";
  fmt_q := Demo.quote;
  pods_Do := list_pods;
  proxy_DoRaw := Demo.do_raw;
  roundTripperFor := fun cfg =>
    match cfg with Some _ => inr tt | None => inl "no configuration" end;
  NewSPDYExecutor := fun _ req =>
    if String.eqb (execContainer req) "" then inl "container name required"
    else inr req;
  exec_Stream := Demo.stream;
  newPortForwarder := new_forwarder;
  fw_Start := start;
  fw_Address := fun _ _ => "127.0.0.1:40123";
  fw_Close := fun _ w => S w;
  http_NewRequest_err := fun _ _ => None;
  http_Do := fun req w => (inl "connection reset by peer", S w);
  ioutil_ReadAll := fun resp w => (inr resp, S w);
  Body_Close := fun _ w => S w
|}.

(** A client with a revision, one whose configuration pointer points to
    nothing, and a first state. *)
Definition c1 : client := mkClient 1%positive "canary".
Definition c9 : client := mkClient 9%positive "".
Definition st0 : State := mkState (0%nat : World) {[ 1%positive := "https://cluster" ]} [].

End Trouble.

(** ** Files and logs on the small cluster

    The file system has [istio.yaml], [gateway.yaml] and [bad.yaml] with
    content, [empty.yaml] with none, and no other file. Applying or
    deleting [bad.yaml] fails; the kubeconfig names the namespace
    [default]. The logs of [istiod-b] cannot be streamed. *)

Module DemoTools.

Import Demo.

#[export] Instance handles : Handles := {|
  LogStream := string;
  DynamicClient := unit;
  DiscoveryClient := unit;
  Schema := unit;
  Validator := unit;
  Builder := unit;
  RESTMapper := unit;
  BuildResult := list string
|}.

Definition stat (f : string) (_ : nat) : string + Z :=
  if String.eqb f "empty.yaml" then inr 0%Z
  else if String.eqb f "istio.yaml" then inr 2048%Z
  else if String.eqb f "gateway.yaml" then inr 512%Z
  else if String.eqb f "bad.yaml" then inr 17%Z
  else inl "stat: no such file or directory".

Definition run (files : list string) (w : nat)
    : (option string * string * string) * nat :=
  (if bool_decide (files = ["bad.yaml"])
   then (Some "error validating data", "", "unknown field spec.hosst")
   else (None, "configured", ""),
   S w).

Definition log_stream (ns pod : string) (_ : PodLogOptions) (w : nat)
    : (string + string) * nat :=
  (if String.eqb pod "istiod-b" then inl "container not found" else inr pod,
   S w).

Definition copy (s : string) (w : nat) : (string * option string) * nat :=
  (if String.eqb s "istiod-c" then ("partial", Some "unexpected EOF")
   else ("info: ready", None),
   S w).

Definition list_selected (ns _ : string) (w : nat)
    : (option (list Pod) * option string) * nat :=
  (if String.eqb ns "broken" then (None, Some "connection refused")
   else (Some [Demo.podA], None),
   S w).

Definition answer {A} (a : A) (w : nat) : A * nat := (a, S w).

#[export] Instance tools : @Tools Demo.env handles :=
  @Build_Tools Demo.env handles
    log_stream                               (* logs_Stream *)
    copy                                     (* io_Copy *)
    (fun _ => S)                             (* stream_Close *)
    list_selected                            (* pods_List *)
    stat                                     (* os_Stat *)
    (answer (inr tt))                        (* factory_DynamicClient *)
    (answer (inr tt))                        (* factory_ToDiscoveryClient *)
    (answer ("default", false, None))        (* factory_Namespace *)
    (answer None)                            (* factory_OpenAPISchema *)
    (fun _ => answer (inr tt))               (* factory_Validator *)
    tt                                       (* factory_NewBuilder *)
    (answer (inr tt))                        (* factory_ToRESTMapper *)
    (fun o => run (aoFilenames o))           (* apply_Run *)
    (fun _ _ files => answer files)          (* builder_Do *)
    (fun _ => None)                          (* result_Err *)
    (fun o => run (doFilenames o)).          (* delete_RunDelete *)

(** A first state for these operations. *)
Definition op0 : OpState := mkOpState (0%nat : World) [].

End DemoTools.

(** ** The same files without a kubeconfig namespace

    The factory cannot tell the namespace of the kubeconfig; the rest is
    as in [DemoTools]. *)

Module NoKubeconfig.

Import Demo.

#[export] Instance tools : @Tools Demo.env DemoTools.handles :=
  @Build_Tools Demo.env DemoTools.handles
    DemoTools.log_stream
    DemoTools.copy
    (fun _ => S)
    DemoTools.list_selected
    DemoTools.stat
    (DemoTools.answer (inr tt))
    (DemoTools.answer (inr tt))
    (DemoTools.answer ("", false, Some "invalid configuration: no configuration has been provided"))
    (DemoTools.answer None)
    (fun _ => DemoTools.answer (inr tt))
    tt
    (DemoTools.answer (inr tt))
    (fun o => DemoTools.run (aoFilenames o))
    (fun _ _ files => DemoTools.answer files)
    (fun _ => None)
    (fun o => DemoTools.run (doFilenames o)).

End NoKubeconfig.

(** ** Paths on the small cluster *)

Module DemoURL.

Definition parse (s : string) : string + (string * gmap string (list string)) :=
  if String.eqb s "/debug/syncz?proxyID=a&verbose=1&proxyID=b"
  then inr ("/debug/syncz", {[ "proxyID" := ["a"; "b"]; "verbose" := ["1"] ]})
  else if String.eqb s "/debug/%zz" then inl "invalid URL escape %zz"
  else inr (s, ∅).

#[export] Instance parser : @URLParser Demo.env := @Build_URLParser Demo.env parse.

End DemoURL.

(** * Properties *)

(** ** Strings *)

Lemma append_nil_l (s : string) : "" +:+ s = s.
Proof. reflexivity. Qed.

Lemma append_cons (c : ascii) (s t : string) :
  String c s +:+ t = String c (s +:+ t).
Proof. reflexivity. Qed.

Lemma append_nil_r (s : string) : s +:+ "" = s.
Proof. induction s as [|c s IH]; [reflexivity|]. now rewrite append_cons, IH. Qed.

Lemma append_assoc (s t u : string) : (s +:+ t) +:+ u = s +:+ t +:+ u.
Proof.
  induction s as [|c s IH]; [reflexivity|]. now rewrite !append_cons, IH.
Qed.

Lemma Contains_refl (s : string) : strings.Contains s s.
Proof. exists "", "". now rewrite append_nil_l, append_nil_r. Qed.

Lemma Contains_append_l (s t sub : string) :
  strings.Contains t sub -> strings.Contains (s +:+ t) sub.
Proof.
  intros (pre & post & ->). exists (s +:+ pre), post. now rewrite append_assoc.
Qed.

Lemma Contains_append_r (s t sub : string) :
  strings.Contains s sub -> strings.Contains (s +:+ t) sub.
Proof.
  intros (pre & post & ->). exists pre, (post +:+ t).
  now rewrite !append_assoc.
Qed.

(** ** Splitting and joining *)

Lemma Split_not_nil (s : string) (sep : ascii) : strings.Split s sep <> [].
Proof.
  destruct s as [|c s]; simpl; [discriminate|].
  destruct (Ascii.eqb c sep); [discriminate|].
  destruct (strings.Split s sep); discriminate.
Qed.

(** Joining the segments with the separator gives the string back. *)
Lemma Join_Split (s : string) (sep : ascii) :
  strings.Join (strings.Split s sep) (String sep "") = s.
Proof.
  induction s as [|c s IH]; simpl; [reflexivity|].
  destruct (Ascii.eqb_spec c sep) as [->|Hne].
  - pose proof (Split_not_nil s sep) as Hn.
    destruct (strings.Split s sep) as [|seg segs] eqn:E; [congruence|].
    simpl in *. now rewrite IH.
  - pose proof (Split_not_nil s sep) as Hn.
    destruct (strings.Split s sep) as [|seg segs] eqn:E; [congruence|].
    destruct segs as [|seg' segs]; simpl in *; now rewrite <- IH.
Qed.

(** No segment contains the separator. *)
Lemma Split_no_sep (s : string) (sep : ascii) :
  Forall (fun seg => forall pre post, seg <> pre +:+ String sep post)
         (strings.Split s sep).
Proof.
  induction s as [|c s IH]; simpl.
  - constructor; [|constructor]. intros [|? ?] post; discriminate.
  - destruct (Ascii.eqb_spec c sep) as [->|Hne].
    + constructor; [|exact IH]. intros [|? ?] post; discriminate.
    + pose proof (Split_not_nil s sep) as Hn.
      destruct (strings.Split s sep) as [|seg segs] eqn:E; [congruence|].
      inversion IH as [|? ? Hseg Hsegs]; subst.
      constructor; [|exact Hsegs].
      intros [|a pre] post Heq; simpl in Heq; injection Heq as Hc Hs.
      * congruence.
      * exact (Hseg pre post Hs).
Qed.

Lemma Join_cons (x y : string) (l : list string) (sep : string) :
  strings.Join (x :: y :: l) sep = x +:+ sep +:+ strings.Join (y :: l) sep.
Proof. reflexivity. Qed.

Lemma Join_snoc2 (l : list string) (a b sep : string) :
  l <> [] ->
  strings.Join (l ++ [a; b]) sep
  = strings.Join l sep +:+ sep +:+ a +:+ sep +:+ b.
Proof.
  induction l as [|x l IH]; [congruence|]. intros _.
  destruct l as [|y l]; [reflexivity|].
  change ((x :: y :: l) ++ [a; b]) with (x :: (y :: l) ++ [a; b]).
  change ((y :: l) ++ [a; b]) with (y :: (l ++ [a; b])) at 1.
  rewrite Join_cons.
  change (y :: l ++ [a; b]) with ((y :: l) ++ [a; b]).
  rewrite IH by discriminate.
  now rewrite Join_cons, !append_assoc.
Qed.

(** ** The version string *)

(** A list of at least two elements is its front and its last two. *)
Lemma last_two_split {A} (l : list A) (d : A) :
  (2 <= length l)%nat ->
  l = take (length l - 2) l
      ++ [nth (length l - 2) l d; nth (length l - 1) l d].
Proof.
  intros Hlen.
  rewrite <- (take_drop (length l - 2) l) at 1. f_equal.
  assert (Hd : length (drop (length l - 2) l) = 2%nat)
    by (rewrite length_drop; lia).
  destruct (drop (length l - 2) l) as [|x [|y [|z r]]] eqn:E;
    simpl in Hd; try lia.
  assert (H0 : drop (length l - 2) l !! 0%nat = Some x) by now rewrite E.
  assert (H1 : drop (length l - 2) l !! 1%nat = Some y) by now rewrite E.
  rewrite lookup_drop in H0, H1.
  replace (length l - 2 + 0)%nat with (length l - 2)%nat in H0 by lia.
  replace (length l - 2 + 1)%nat with (length l - 1)%nat in H1 by lia.
  rewrite !nth_lookup, H0, H1. reflexivity.
Qed.

Lemma slice_from_0 {A} (l : list A) (hi : nat) : slice l 0 hi = take hi l.
Proof. unfold slice. now rewrite Nat.sub_0_r. Qed.

(** X1. With three segments or more, the three fields joined with ["-"] are
    the input again: nothing of the string is lost. *)
Lemma parseVersion_rejoin (s : string) :
  (3 <= length (strings.Split s "-"))%nat ->
  s = Version (parseVersion s) +:+ "-" +:+ GitRevision (parseVersion s)
      +:+ "-" +:+ BuildStatus (parseVersion s).
Proof.
  intros Hn. unfold parseVersion.
  destruct (Nat.leb_spec 3 (length (strings.Split s "-"))) as [_|?]; [|lia].
  simpl. rewrite slice_from_0.
  rewrite <- (Join_Split s "-") at 1.
  rewrite (last_two_split (strings.Split s "-") "") at 1 by lia.
  apply Join_snoc2.
  intros Hnil. apply (f_equal length) in Hnil.
  rewrite length_take in Hnil. simpl in Hnil. lia.
Qed.

(** X2. With three segments or more, neither the revision nor the status
    contains a ["-"]. *)
Lemma parseVersion_fields_no_dash (s : string) :
  (3 <= length (strings.Split s "-"))%nat ->
  forall pre post,
    GitRevision (parseVersion s) <> pre +:+ String "-" post
    /\ BuildStatus (parseVersion s) <> pre +:+ String "-" post.
Proof.
  intros Hn pre post. unfold parseVersion.
  destruct (Nat.leb_spec 3 (length (strings.Split s "-"))) as [_|?]; [|lia].
  simpl. pose proof (Split_no_sep s "-") as Hall.
  rewrite Forall_lookup in Hall. rewrite !nth_lookup.
  split.
  - destruct (lookup_lt_is_Some_2 (strings.Split s "-")
                (length (strings.Split s "-") - 2)%nat) as [a Ha]; [lia|].
    rewrite Ha. simpl. exact (Hall _ _ Ha pre post).
  - destruct (lookup_lt_is_Some_2 (strings.Split s "-")
                (length (strings.Split s "-") - 1)%nat) as [b Hb]; [lia|].
    rewrite Hb. simpl. exact (Hall _ _ Hb pre post).
Qed.

(** With fewer than three segments no field but the version is set. *)
Lemma parseVersion_opaque (s : string) :
  (length (strings.Split s "-") < 3)%nat ->
  parseVersion s = mkBuildInfo s "" "" "" "".
Proof.
  intros Hn. unfold parseVersion.
  destruct (Nat.leb_spec 3 (length (strings.Split s "-"))) as [?|_]; [lia|].
  reflexivity.
Qed.

(** C4. For every version string [s], with [segs] its segments between
    the ["-"] and [n] their number: when [n >= 3] the git revision is
    [segs[n-2]], the build status is [segs[n-1]] and the version is the
    segments before them joined with ["-"]; when [n < 3] the version is
    [s] itself and the two other fields are empty. [parseVersion] is a
    total function, so parsing cannot fail. The string
    ["1.7-alpha.9c900ba-9c900ba74d10a1-Clean"] gives the version
    ["1.7-alpha.9c900ba"], the revision ["9c900ba74d10a1"] and the status
    ["Clean"]. *)
Theorem parseVersion_spec (s : string) :
  let segs := strings.Split s "-" in
  let n := length segs in
  (if (3 <=? n)%nat then
     segs !! (n - 2)%nat = Some (GitRevision (parseVersion s)) /\
     segs !! (n - 1)%nat = Some (BuildStatus (parseVersion s)) /\
     Version (parseVersion s) = strings.Join (take (n - 2) segs) "-"
   else
     Version (parseVersion s) = s /\
     GitRevision (parseVersion s) = "" /\
     BuildStatus (parseVersion s) = "")
  /\ Version (parseVersion "1.7-alpha.9c900ba-9c900ba74d10a1-Clean")
     = "1.7-alpha.9c900ba"
  /\ GitRevision (parseVersion "1.7-alpha.9c900ba-9c900ba74d10a1-Clean")
     = "9c900ba74d10a1"
  /\ BuildStatus (parseVersion "1.7-alpha.9c900ba-9c900ba74d10a1-Clean")
     = "Clean".
Proof.
  intros segs n. split; [|repeat split; reflexivity].
  unfold parseVersion. fold segs. fold n.
  destruct (Nat.leb_spec 3 n) as [Hn|Hn]; simpl.
  - rewrite slice_from_0, !nth_lookup.
    destruct (lookup_lt_is_Some_2 segs (n - 2)%nat) as [a Ha]; [unfold n in *; lia|].
    destruct (lookup_lt_is_Some_2 segs (n - 1)%nat) as [b Hb]; [unfold n in *; lia|].
    rewrite Ha, Hb. repeat split; reflexivity.
  - repeat split; reflexivity.
Qed.

Example parseVersion_one_segment : parseVersion "1.7" = mkBuildInfo "1.7" "" "" "" "".
Proof. reflexivity. Qed.

Example parseVersion_two_segments :
  parseVersion "1.7-dev" = mkBuildInfo "1.7-dev" "" "" "" "".
Proof. reflexivity. Qed.

Example parseVersion_three_segments :
  parseVersion "1.7-abc-Clean" = mkBuildInfo "1.7" "abc" "" "Clean" "1.7".
Proof. reflexivity. Qed.

Section Properties.

Context `{Env}.

Lemma call_eq {A} (ev : Event) (f : World -> A * World) (st : State) a w :
  f (world st) = (a, w) -> call ev f st = (a, after st ev w).
Proof. intros Hf. unfold call. now rewrite Hf. Qed.

(** ** Pod resolution *)

(** A call of [GetIstioPods] on a map that is not nil is one list query,
    and its result is the answer. *)
Lemma GetIstioPods_eq (c : client) (ns : string) (params : gmap string string)
    (st : State) r w :
  pods_Do ns (revisionParams c params) (world st) = (r, w) ->
  GetIstioPodsOfMap c ns params st
  = (match r with
     | DoFailed e =>
         ([], Some (errorString ("unable to retrieve Pods: " +:+ Error e)))
     | IntoFailed _ => ([], Some (errorString "unable to parse PodList: <nil>"))
     | Listed items => (items, None)
     end,
     after st (EvListPods ns (revisionParams c params)) w).
Proof.
  intros Hdo. unfold GetIstioPodsOfMap, listPods, bind.
  rewrite (call_eq _ _ _ _ _ Hdo). now destruct r.
Qed.

(** [GetIstioPods] on a map that is not nil returns, with what
    [GetIstioPodsOfMap] gives, and leaves the written map to the caller. *)
Lemma GetIstioPods_of_map (c : client) (ns : string)
    (params : gmap string string) (st : State) :
  GetIstioPods c ns (Some params) st
  = ((Returns (fst (GetIstioPodsOfMap c ns params st)),
      Some (revisionParams c params)),
     snd (GetIstioPodsOfMap c ns params st)).
Proof.
  unfold GetIstioPods, GetIstioPodsOfMap, bind, ret. simpl.
  now destruct (listPods c ns (revisionParams c params) st).
Qed.

(** C1, where the code departs from it. A nil map has no
    [labelSelector] entry, so with a non-empty revision [R] the query is
    to be issued with the label selector ["<revision-label>=R"] alone.
    The code looks the entry up and then writes into the nil map: the
    call panics, and no query is issued (the state is as before). *)
Theorem GetIstioPods_nil_map_panics (c : client) (ns : string) (st : State) :
  revision c <> "" ->
  GetIstioPods c ns None st
  = ((Panics "assignment to entry in nil map", None), st).
Proof.
  intros Hrev. unfold GetIstioPods, writeRevision.
  destruct (decide (revision c = "")); [congruence | reflexivity].
Qed.

(** X27. On a map that is not nil [GetIstioPods] returns and issues
    exactly one pod-list query. With a non-empty revision [R] of the
    client, its [labelSelector] is ["L,<revision-label>=R"] when the map
    has a [labelSelector] entry [L], and ["<revision-label>=R"] when it
    has none; the other parameters are those of the map. With an empty
    revision the query parameters are those of the map, unchanged. The
    parameters of the query are what the caller finds in its map after
    the call. Without a revision a nil map gives the query without
    parameters. *)
Theorem GetIstioPods_labelSelector (c : client) (ns : string)
    (params : gmap string string) (st : State) :
  (exists (q : gmap string string) (r : list Pod * option error),
     trace (snd (GetIstioPods c ns (Some params) st)) = trace st ++ [EvListPods ns q]
     /\ fst (GetIstioPods c ns (Some params) st) = (Returns r, Some q)
     /\ if decide (revision c = "") then q = params
        else
          q !! "labelSelector"
          = Some (match params !! "labelSelector" with
                  | Some L => L +:+ "," +:+ label_IstioRev +:+ "=" +:+ revision c
                  | None => label_IstioRev +:+ "=" +:+ revision c
                  end)
          /\ forall k, k <> "labelSelector" -> q !! k = params !! k)
  /\ (revision c = "" ->
      exists r : list Pod * option error,
        trace (snd (GetIstioPods c ns None st)) = trace st ++ [EvListPods ns ∅]
        /\ fst (GetIstioPods c ns None st) = (Returns r, None)).
Proof.
  split.
  - exists (revisionParams c params), (fst (GetIstioPodsOfMap c ns params st)).
    rewrite GetIstioPods_of_map. simpl. split; [|split; [reflexivity|]].
    + destruct (pods_Do ns (revisionParams c params) (world st)) as [r w] eqn:Hdo.
      now rewrite (GetIstioPods_eq _ _ _ _ _ _ Hdo).
    + unfold revisionParams. destruct (decide (revision c = "")); [reflexivity|].
      destruct (params !! "labelSelector") as [L|]; split;
        try apply lookup_insert_eq;
        intros k Hk; now apply lookup_insert_ne.
  - intros Hrev.
    assert (Hq : revisionParams c ∅ = ∅).
    { unfold revisionParams. destruct (decide (revision c = "")); congruence. }
    unfold GetIstioPods, writeRevision.
    destruct (decide (revision c = "")); [|congruence].
    unfold bind, ret. simpl.
    replace (listPods c ns ∅) with (GetIstioPodsOfMap c ns ∅)
      by (unfold GetIstioPodsOfMap; now rewrite Hq).
    destruct (pods_Do ns (revisionParams c ∅) (world st)) as [r w] eqn:Hdo.
    rewrite (GetIstioPods_eq _ _ _ _ _ _ Hdo), Hq. simpl.
    eexists. split; reflexivity.
Qed.

(** C2, as the code has it. When the list query matches no pod,
    [GetIstioPods] itself returns the empty list with a nil error. It is
    its two callers that turn the empty list into an error, before any
    pod is probed: [AllDiscoveryDo] returns ["unable to find any Pilot
    instances"] and [GetIstioVersions] returns ["no running Istio pods in
    <namespace>"], neither of them a result. *)
Theorem empty_resolution (c : client) (ns : string)
    (params : gmap string string) (st : State) (w : World) :
  pods_Do ns (revisionParams c params) (world st) = (Listed [], w) ->
  let st' := after st (EvListPods ns (revisionParams c params)) w in
  GetIstioPods c ns (Some params) st
  = ((Returns ([], None), Some (revisionParams c params)), st')
  /\ (params = pilotParams ->
      forall path,
        AllDiscoveryDo c ns path st
        = ((∅, Some (errorString "unable to find any Pilot instances")), st'))
  /\ (params = istioParams ->
      GetIstioVersions c ns st
      = ((None, Some (errorString ("no running Istio pods in " +:+ fmt_q ns))),
         st')).
Proof.
  intros Hdo st'. pose proof (GetIstioPods_eq _ _ _ _ _ _ Hdo) as Hget.
  split; [now rewrite GetIstioPods_of_map, Hget|]. split; intros -> .
  - intros path. unfold AllDiscoveryDo, bind. now rewrite Hget.
  - unfold GetIstioVersions, bind. now rewrite Hget.
Qed.

(** ** The fan-out loops *)

Lemma probed_nil path port (st : State) : probed path port [] st = st.
Proof.
  destruct st as [w h t]. unfold probed, probeEvents. simpl.
  now rewrite app_nil_r.
Qed.

Lemma probed_cons path port pod rest (st : State) r w :
  proxy_DoRaw (Name pod) (Namespace pod) path port (world st) = (r, w) ->
  probed path port (pod :: rest) st
  = probed path port rest
      (after st (EvProxyGet (Name pod) (Namespace pod) path port) w).
Proof.
  intros Hp. unfold probed, probeEvents, after. simpl.
  rewrite Hp. simpl. now rewrite <- app_assoc.
Qed.

Lemma probeAll_length path port pods w :
  length (probeAll path port pods w) = length pods.
Proof.
  revert w. induction pods as [|pod rest IH]; intros w; simpl; [reflexivity|].
  destruct (proxy_DoRaw (Name pod) (Namespace pod) path port w) as [r w'].
  simpl. now rewrite IH.
Qed.

(** The loop of [GetIstioVersions] probes every pod, whatever the
    answers: the entries are the contributions of the answers, and every
    failure is appended to the error. *)
Lemma versionsLoop_eq (pods : list Pod) (errs : option error) (res : MeshInfo)
    (st : State) :
  versionsLoop pods errs res st
  = ((res ++ contributions (probeAll "/version" 15014 pods (world st)),
      appendAll errs (failures (probeAll "/version" 15014 pods (world st)))),
     probed "/version" 15014 pods st).
Proof.
  revert errs res st.
  induction pods as [|pod rest IH]; intros errs res st.
  - simpl. unfold ret. now rewrite app_nil_r, probed_nil.
  - simpl. unfold bind, proxyGet_DoRaw.
    destruct (proxy_DoRaw (Name pod) (Namespace pod) "/version" 15014 (world st))
      as [r w] eqn:Hp.
    rewrite (call_eq _ _ _ _ _ Hp), (probed_cons _ _ _ _ _ _ _ Hp).
    destruct r as [err|result].
    + rewrite IH. reflexivity.
    + unfold contributions. simpl. fold contributions.
      destruct (nonEmpty result); rewrite IH; simpl; [|reflexivity].
      now rewrite <- app_assoc.
Qed.

Lemma appendAll_multi (l es : list error) :
  Forall (fun e => exists msg, e = errorString msg) es ->
  appendAll (Some (multiError l)) es = Some (multiError (l ++ es)).
Proof.
  revert l. induction es as [|e es IH]; intros l Hes.
  - simpl. now rewrite app_nil_r.
  - inversion Hes as [|? ? [msg ->] Hes']; subst.
    unfold appendAll in *. simpl. rewrite IH by assumption.
    now rewrite <- app_assoc.
Qed.

Lemma appendAll_nil (es : list error) :
  Forall (fun e => exists msg, e = errorString msg) es ->
  appendAll None es = combined es.
Proof.
  destruct es as [|e es]; [reflexivity|].
  intros Hes. inversion Hes as [|? ? [msg ->] Hes']; subst. simpl.
  exact (appendAll_multi [errorString msg] es Hes').
Qed.

Lemma failures_plain (prs : list (Pod * (Err + string))) :
  Forall (fun e => exists msg, e = errorString msg) (failures prs).
Proof.
  induction prs as [|[pod [err|b]] prs IH]; simpl; [constructor| |exact IH].
  constructor; [|exact IH]. unfold probeError. eauto.
Qed.

(** While no probe fails, the loop of [AllDiscoveryDo] goes through all
    the pods and stores the answers that have a payload. *)
Lemma discoveryLoop_ok (pods : list Pod) (path : string)
    (m : gmap string string) (st : State) :
  Forall succeeded (probeAll path 8080 pods (world st)) ->
  discoveryLoop pods path m st
  = ((collect (probeAll path 8080 pods (world st)) m, None),
     probed path 8080 pods st).
Proof.
  revert m st. induction pods as [|pod rest IH]; intros m st Hok.
  - simpl. unfold ret. now rewrite probed_nil.
  - simpl in *. unfold bind, proxyGet_DoRaw.
    destruct (proxy_DoRaw (Name pod) (Namespace pod) path 8080 (world st))
      as [r w] eqn:Hp.
    rewrite (call_eq _ _ _ _ _ Hp), (probed_cons _ _ _ _ _ _ _ Hp).
    inversion Hok as [|? ? [b Hb] Hrest]; subst. simpl in Hb. subst r.
    rewrite IH by exact Hrest. reflexivity.
Qed.

(** At the first probe that fails, the loop returns: the map is nil, the
    error is the one of that probe, and the pods after it are not probed. *)
Lemma discoveryLoop_fail (pods : list Pod) (path : string)
    (m : gmap string string) (st : State) pre pod e post :
  probeAll path 8080 pods (world st) = pre ++ (pod, inl e) :: post ->
  Forall succeeded pre ->
  discoveryLoop pods path m st
  = ((∅, Some (extError e)), probed path 8080 (map fst pre ++ [pod]) st).
Proof.
  revert m st pre. induction pods as [|pod0 rest IH]; intros m st pre Hprs Hpre.
  - simpl in Hprs. destruct pre; discriminate.
  - simpl in *. unfold bind, proxyGet_DoRaw.
    destruct (proxy_DoRaw (Name pod0) (Namespace pod0) path 8080 (world st))
      as [r w] eqn:Hp.
    rewrite (call_eq _ _ _ _ _ Hp).
    destruct pre as [|pr pre]; simpl in Hprs.
    + injection Hprs as -> -> Htl. simpl.
      rewrite (probed_cons _ _ _ _ _ _ _ Hp), probed_nil. reflexivity.
    + injection Hprs as <- Htl.
      inversion Hpre as [|? ? [b Hb] Hpre']; subst. simpl in Hb.
      subst r. simpl.
      rewrite (probed_cons _ _ _ _ _ _ _ Hp).
      apply IH; assumption.
Qed.

(** C3, as the code has it. Over a non-empty set of discovery pods
    [AllDiscoveryDo] probes the pods in the order of the list and stops at
    the first probe that fails: it returns a nil map with the error of
    that probe as it is, no multi-error, and the pods after it are not
    probed (the trace holds the list query and the probes up to the
    failing one). When no probe fails, all the pods are probed, the
    answers with a payload are the map, and the error is nil. *)
Theorem AllDiscoveryDo_fail_fast (c : client) (ns path : string) (st : State)
    (pods : list Pod) (w1 : World) :
  pods_Do ns (revisionParams c pilotParams) (world st) = (Listed pods, w1) ->
  pods <> [] ->
  let query := EvListPods ns (revisionParams c pilotParams) in
  let prs := probeAll path 8080 pods w1 in
  (Forall succeeded prs ->
   fst (AllDiscoveryDo c ns path st) = (collect prs ∅, None)
   /\ trace (snd (AllDiscoveryDo c ns path st))
      = trace st ++ query :: probeEvents path 8080 pods)
  /\ (forall pre pod e post,
        prs = pre ++ (pod, inl e) :: post ->
        Forall succeeded pre ->
        fst (AllDiscoveryDo c ns path st) = (∅, Some (extError e))
        /\ trace (snd (AllDiscoveryDo c ns path st))
           = trace st ++ query :: probeEvents path 8080 (map fst pre ++ [pod])).
Proof.
  intros Hdo Hne query prs.
  assert (Hrun : AllDiscoveryDo c ns path st
                 = discoveryLoop pods path ∅ (after st query w1)).
  { unfold AllDiscoveryDo, bind. rewrite (GetIstioPods_eq _ _ _ _ _ _ Hdo).
    destruct pods; [congruence | reflexivity]. }
  rewrite Hrun. split.
  - intros Hok. rewrite discoveryLoop_ok by exact Hok. simpl.
    split; [reflexivity | now rewrite <- app_assoc].
  - intros pre pod e post Hprs Hpre.
    rewrite (discoveryLoop_fail pods path ∅ (after st query w1) pre pod e post
               Hprs Hpre). simpl.
    split; [reflexivity | now rewrite <- app_assoc].
Qed.

(** ** What the aggregates hold *)

Lemma nonEmpty_true (b : string) : nonEmpty b = true <-> b <> "".
Proof.
  unfold nonEmpty. destruct b as [|a b]; simpl.
  - split; [discriminate | congruence].
  - split; [discriminate | reflexivity].
Qed.

Lemma nonEmpty_empty : nonEmpty "" = false.
Proof. reflexivity. Qed.

(** The contributions are the answers that succeeded with a payload. *)
Lemma elem_of_contributions (prs : list (Pod * (Err + string))) (s : ServerInfo) :
  s ∈ contributions prs
  <-> exists pod b, (pod, inr b) ∈ prs /\ b <> "" /\ s = serverOf pod b.
Proof.
  unfold contributions. rewrite list_elem_of_In, in_flat_map. split.
  - intros ([pod [err|b]] & Hin & Hs); simpl in Hs; [contradiction|].
    destruct (nonEmpty b) eqn:Hb; [|contradiction].
    destruct Hs as [<-|[]]. exists pod, b.
    rewrite list_elem_of_In. now rewrite <- nonEmpty_true.
  - intros (pod & b & Hin & Hb & ->). exists (pod, inr b).
    rewrite <- list_elem_of_In. split; [exact Hin|]. simpl.
    apply nonEmpty_true in Hb. rewrite Hb. now left.
Qed.

(** The recorded errors are those of the answers that failed. *)
Lemma elem_of_failures (prs : list (Pod * (Err + string))) (e : error) :
  e ∈ failures prs
  <-> exists pod err, (pod, inl err) ∈ prs /\ e = probeError pod err.
Proof.
  unfold failures. rewrite list_elem_of_In, in_flat_map. split.
  - intros ([pod [err|b]] & Hin & He); simpl in He; [|contradiction].
    destruct He as [<-|[]]. exists pod, err. now rewrite list_elem_of_In.
  - intros (pod & err & Hin & ->). exists (pod, inl err).
    rewrite <- list_elem_of_In. split; [exact Hin|]. now left.
Qed.

Lemma failures_all_failed (prs : list (Pod * (Err + string))) :
  Forall (fun pr => exists err, snd pr = inl err) prs ->
  contributions prs = [] /\ length (failures prs) = length prs.
Proof.
  induction 1 as [|[pod r] prs [err Hr] _ [IHc IHf]]; [split; reflexivity|].
  simpl in Hr. subst r. simpl. now rewrite IHc, IHf.
Qed.

(** [GetIstioVersions] over a non-empty list of pods is the loop. *)
Lemma GetIstioVersions_eq (c : client) (ns : string) (st : State)
    (pods : list Pod) (w1 : World) :
  pods_Do ns (revisionParams c istioParams) (world st) = (Listed pods, w1) ->
  pods <> [] ->
  GetIstioVersions c ns st
  = ((Some (contributions (probeAll "/version" 15014 pods w1)),
      combined (failures (probeAll "/version" 15014 pods w1))),
     probed "/version" 15014 pods
       (after st (EvListPods ns (revisionParams c istioParams)) w1)).
Proof.
  intros Hdo Hne. unfold GetIstioVersions, bind.
  rewrite (GetIstioPods_eq _ _ _ _ _ _ Hdo).
  destruct pods as [|pod rest]; [congruence|].
  change (length (pod :: rest) =? 0)%nat with false. cbv beta iota.
  rewrite versionsLoop_eq. unfold ret. simpl fst. simpl snd.
  rewrite appendAll_nil by apply failures_plain. reflexivity.
Qed.

(** C5, as the code has it. Over a non-empty list of pods
    [GetIstioVersions] returns a pointer that is not nil to the aggregate,
    which holds exactly the entries of the probes that succeeded with a
    payload, in the order of the pods, together with the combined error:
    nil when no probe failed, and otherwise the multi-error that holds,
    for every probe that failed and in the order of the pods, an error
    whose text is ["error port-forewarding into "], the name of the pod,
    [" : "] and the text of the failure. The code does not tell a success
    with recorded errors from a failure: as soon as a probe fails, the
    result is the pointer with a multi-error that is not nil, whether
    every probe failed (the aggregate is then empty, and there is one
    error for each pod) or not. *)
Theorem GetIstioVersions_collect_all (c : client) (ns : string) (st : State)
    (pods : list Pod) (w1 : World) :
  pods_Do ns (revisionParams c istioParams) (world st) = (Listed pods, w1) ->
  pods <> [] ->
  let prs := probeAll "/version" 15014 pods w1 in
  let entries :=
    flat_map (fun pr =>
                match snd pr with
                | inr (String a b) =>
                    [{| Component := default "" (Labels (fst pr) !! "istio");
                        Info := parseVersion (String a b) |}]
                | _ => []
                end) prs in
  let errors :=
    flat_map (fun pr =>
                match snd pr with
                | inl err =>
                    [errorString ("error port-forewarding into " +:+ Name (fst pr)
                                  +:+ " : " +:+ Error err)]
                | inr _ => []
                end) prs in
  let r := fst (GetIstioVersions c ns st) in
  r = (Some entries, match errors with [] => None | _ => Some (multiError errors) end)
  /\ (forall pod err, (pod, inl err) ∈ prs ->
       exists msg, errorString msg ∈ errors
                   /\ strings.Contains msg (Name pod)
                   /\ strings.Contains msg (Error err))
  /\ (forall pod err, (pod, inl err) ∈ prs ->
       r = (Some entries, Some (multiError errors))
       /\ (entries <> [] <-> exists pod' b, (pod', inr b) ∈ prs /\ b <> ""))
  /\ (Forall (fun pr => exists err, snd pr = inl err) prs ->
      r = (Some [], Some (multiError errors))
      /\ length errors = length pods).
Proof.
  intros Hdo Hne prs entries errors r.
  assert (Hentries : entries = contributions prs).
  { unfold entries, contributions. apply flat_map_ext.
    intros [pod [err|[|a b]]]; reflexivity. }
  assert (Herrors : errors = failures prs) by reflexivity.
  assert (Hr : r = (Some entries, combined errors)).
  { unfold r. rewrite (GetIstioVersions_eq _ _ _ _ _ Hdo Hne).
    now rewrite Hentries, Herrors. }
  assert (Hin : forall pod err, (pod, inl err) ∈ prs ->
            errorString ("error port-forewarding into " +:+ Name pod
                         +:+ " : " +:+ Error err) ∈ errors).
  { intros pod err Hpr. rewrite Herrors. apply elem_of_failures.
    exists pod, err. split; [exact Hpr | reflexivity]. }
  split; [exact Hr|]. split; [|split].
  - intros pod err Hpr. eexists. split; [exact (Hin pod err Hpr)|]. split.
    + apply Contains_append_l, Contains_append_r, Contains_refl.
    + do 3 apply Contains_append_l. apply Contains_refl.
  - intros pod err Hpr. split.
    + rewrite Hr. unfold combined. specialize (Hin pod err Hpr).
      destruct errors; [inversion Hin | reflexivity].
    + rewrite Hentries. split.
      * intros Hne'. destruct (contributions prs) as [|s ss] eqn:Hc; [congruence|].
        assert (Hs : s ∈ contributions prs) by (rewrite Hc; apply list_elem_of_here).
        apply elem_of_contributions in Hs as (pod' & b & Hb & Hnb & _). eauto.
      * intros (pod' & b & Hb & Hnb) Hc.
        assert (Hs : serverOf pod' b ∈ contributions prs)
          by (apply elem_of_contributions; eauto).
        rewrite Hc in Hs. inversion Hs.
  - intros Hall. destruct (failures_all_failed prs Hall) as [Hc Hf].
    assert (Hlen : length prs = length pods) by apply probeAll_length.
    rewrite Hr, Hentries, Hc, Herrors. split; [|congruence].
    unfold combined. destruct (failures prs) as [|f fs]; [|reflexivity].
    destruct pods; [congruence|]. simpl in *. lia.
Qed.

(** An entry of the map the loop of [AllDiscoveryDo] returns was in the
    map before the loop, or is the payload, not empty, that a probed pod
    of that name answered. *)
Lemma discoveryLoop_entries (pods : list Pod) (path : string)
    (m : gmap string string) (st : State) (name v : string) :
  fst (fst (discoveryLoop pods path m st)) !! name = Some v ->
  m !! name = Some v
  \/ (v <> ""
      /\ exists pod, Name pod = name
                     /\ (pod, inr v) ∈ probeAll path 8080 pods (world st)).
Proof.
  revert m st. induction pods as [|pod rest IH]; intros m st; simpl.
  - now left.
  - unfold bind, proxyGet_DoRaw.
    destruct (proxy_DoRaw (Name pod) (Namespace pod) path 8080 (world st))
      as [r w] eqn:Hp.
    rewrite (call_eq _ _ _ _ _ Hp).
    destruct r as [err|res]; simpl.
    + rewrite lookup_empty. discriminate.
    + intros Hv. apply IH in Hv as [Hm | (Hne & pod' & Hname & Hin)].
      * destruct (nonEmpty res) eqn:Hres; [|now left].
        destruct (decide (Name pod = name)) as [Heq|Hneq].
        -- rewrite Heq, lookup_insert_eq in Hm. injection Hm as -> .
           right. split; [now apply nonEmpty_true|].
           exists pod. split; [exact Heq | apply list_elem_of_here].
        -- rewrite lookup_insert_ne in Hm by exact Hneq. now left.
      * right. split; [exact Hne|]. exists pod'. split; [exact Hname|].
        apply list_elem_of_further. exact Hin.
Qed.

(** C8. Every entry of the map [AllDiscoveryDo] returns is a payload
    that is not empty, the one a probed pod of that name answered; every
    entry [GetIstioVersions] appends is made from a payload that is not
    empty, answered by a probed pod. A pod that answers with an empty
    payload is passed over by both loops: the next pods are probed with
    the map, the entries and the error as they were. *)
Theorem aggregates_hold_payloads (c : client) (ns path : string) (st : State) :
  (forall name v,
     fst (fst (AllDiscoveryDo c ns path st)) !! name = Some v -> v <> "")
  /\ (forall pods w1 name v,
        pods_Do ns (revisionParams c pilotParams) (world st) = (Listed pods, w1) ->
        fst (fst (AllDiscoveryDo c ns path st)) !! name = Some v ->
        exists pod, Name pod = name
                    /\ (pod, inr v) ∈ probeAll path 8080 pods w1)
  /\ (forall pods w1 agg s,
        pods_Do ns (revisionParams c istioParams) (world st) = (Listed pods, w1) ->
        fst (fst (GetIstioVersions c ns st)) = Some agg ->
        s ∈ agg ->
        exists pod b, (pod, inr b) ∈ probeAll "/version" 15014 pods w1
                      /\ b <> "" /\ s = serverOf pod b)
  /\ (forall pod rest m w,
        proxy_DoRaw (Name pod) (Namespace pod) path 8080 (world st) = (inr "", w) ->
        discoveryLoop (pod :: rest) path m st
        = discoveryLoop rest path m
            (after st (EvProxyGet (Name pod) (Namespace pod) path 8080) w))
  /\ (forall pod rest errs res w,
        proxy_DoRaw (Name pod) (Namespace pod) "/version" 15014 (world st)
        = (inr "", w) ->
        versionsLoop (pod :: rest) errs res st
        = versionsLoop rest errs res
            (after st (EvProxyGet (Name pod) (Namespace pod) "/version" 15014) w)).
Proof.
  assert (Hall : forall name v,
             fst (fst (AllDiscoveryDo c ns path st)) !! name = Some v ->
             v <> ""
             /\ forall pods w1,
                 pods_Do ns (revisionParams c pilotParams) (world st)
                 = (Listed pods, w1) ->
                 exists pod, Name pod = name
                             /\ (pod, inr v) ∈ probeAll path 8080 pods w1).
  { intros name v. unfold AllDiscoveryDo, bind.
    destruct (pods_Do ns (revisionParams c pilotParams) (world st))
      as [r w] eqn:Hdo.
    rewrite (GetIstioPods_eq _ _ _ _ _ _ Hdo).
    destruct r as [e|e|items]; simpl; try (rewrite lookup_empty; discriminate).
    destruct items as [|pod rest]; simpl (length _ =? 0)%nat; cbv iota.
    { simpl. rewrite lookup_empty. discriminate. }
    intros Hv. apply discoveryLoop_entries in Hv as [Hm | (Hne & pod' & Hn & Hin)].
    { rewrite lookup_empty in Hm. discriminate. }
    split; [exact Hne|]. intros pods w1 Heq. injection Heq as <- <- .
    exists pod'. split; assumption. }
  split; [intros name v Hv; exact (proj1 (Hall name v Hv))|].
  split; [intros pods w1 name v Hdo Hv; exact (proj2 (Hall name v Hv) pods w1 Hdo)|].
  split; [|split].
  - intros pods w1 agg s Hdo Hagg Hs.
    destruct pods as [|pod rest].
    + unfold GetIstioVersions, bind in Hagg.
      rewrite (GetIstioPods_eq _ _ _ _ _ _ Hdo) in Hagg. discriminate.
    + rewrite (GetIstioVersions_eq _ _ _ _ _ Hdo) in Hagg by discriminate.
      injection Hagg as <- . now apply elem_of_contributions.
  - intros pod rest m w Hp. simpl. unfold bind, proxyGet_DoRaw.
    now rewrite (call_eq _ _ _ _ _ Hp), nonEmpty_empty.
  - intros pod rest errs res w Hp. simpl. unfold bind, proxyGet_DoRaw.
    now rewrite (call_eq _ _ _ _ _ Hp), nonEmpty_empty.
Qed.

(** ** The tunnel of [EnvoyDo] *)

(** Runs [EnvoyDo] through: every answer of a collaborator is a case. *)
Ltac case_answer :=
  match goal with
  | |- context [newPortForwarder ?a ?b ?c ?d ?e ?f ?w] =>
      destruct (newPortForwarder a b c d e f w) as [[?|?] ?] eqn:?
  | |- context [fw_Start ?fw ?w] =>
      destruct (fw_Start fw w) as [[?|] ?] eqn:?
  | |- context [http_NewRequest_err ?m ?u] =>
      destruct (http_NewRequest_err m u) as [?|] eqn:?
  | |- context [http_Do ?r ?w] =>
      destruct (http_Do r w) as [[?|?] ?] eqn:?
  | |- context [ioutil_ReadAll ?r ?w] =>
      destruct (ioutil_ReadAll r w) as [[?|?] ?] eqn:?
  end; simpl.

Ltac run_EnvoyDo :=
  unfold EnvoyDo, defer, bind, ret, NewPortForwarder, http_NewRequest,
    fwClose, closeQuietly, call, after; simpl;
  repeat case_answer.

(** C6. Whenever the forwarder to the pod was made and started, the
    events [EnvoyDo] adds to the trace end with the closing of that
    forwarder, and it is closed once: nothing that comes before is a
    closing. This holds whatever the request construction, the request
    and the reading of the body answer, so on the success path and on the
    three failure paths after the start: the events in between are the
    construction of the request alone (it failed), the construction and
    the request (it failed), or these two, the reading of the body and
    the closing of the body (the reading failed or succeeded). *)
Theorem EnvoyDo_closes_tunnel (c : client)
    (podName podNamespace method path body : string) (st : State)
    (fw : Forwarder) (w1 w2 : World) :
  newPortForwarder (configOf c st) podName podNamespace "127.0.0.1" 0 15000
    (world st) = (inr fw, w1) ->
  fw_Start fw w1 = (None, w2) ->
  exists (mid : list Event) (w : World),
    trace (snd (EnvoyDo c podName podNamespace method path body st))
    = trace st
      ++ [EvNewPortForwarder podName podNamespace "127.0.0.1" 0 15000;
          EvStart fw]
      ++ mid ++ [EvClose fw]
    /\ Forall notClose mid
    /\ world (snd (EnvoyDo c podName podNamespace method path body st))
       = fw_Close fw w
    /\ let url := "http://" +:+ fw_Address fw w2 +:+ "/" +:+ path in
       let req := mkRequest (methodOrGet method) url None in
       mid = [EvNewRequest method url None]
       \/ mid = [EvNewRequest method url None; EvHTTPDo req]
       \/ exists resp,
            mid = [EvNewRequest method url None; EvHTTPDo req;
                   EvReadAll resp; EvBodyClose resp].
Proof.
  intros Hnew Hstart.
  unfold EnvoyDo, defer, bind, ret, NewPortForwarder, http_NewRequest,
    fwClose, closeQuietly, call, after.
  rewrite Hnew. simpl. rewrite Hstart. simpl.
  repeat case_answer; rewrite <- ?app_assoc; simpl;
    match goal with
    | |- exists mid w, _ ++ _ :: _ :: ?rest = _ /\ _ =>
        exists (removelast rest); simpl
    end;
    eexists; (split; [reflexivity|]); (split; [repeat constructor|]);
    (split; [reflexivity|]);
    first [ left; reflexivity
          | right; left; reflexivity
          | right; right; eexists; reflexivity ].
Qed.

(** X9. The paths of [EnvoyDo] that end before the forwarder is started close
    nothing. *)
Lemma EnvoyDo_not_opened (c : client)
    (podName podNamespace method path body : string) (st : State) :
  (forall e w1,
     newPortForwarder (configOf c st) podName podNamespace "127.0.0.1" 0 15000
       (world st) = (inl e, w1) ->
     EnvoyDo c podName podNamespace method path body st
     = (("", Some (extError e)),
        after st (EvNewPortForwarder podName podNamespace "127.0.0.1" 0 15000) w1))
  /\ (forall fw w1 e w2,
        newPortForwarder (configOf c st) podName podNamespace "127.0.0.1" 0 15000
          (world st) = (inr fw, w1) ->
        fw_Start fw w1 = (Some e, w2) ->
        EnvoyDo c podName podNamespace method path body st
        = (("", Some (formatError e)),
           after (after st (EvNewPortForwarder podName podNamespace
                              "127.0.0.1" 0 15000) w1)
                 (EvStart fw) w2)).
Proof.
  split.
  - intros e w1 Hnew. unfold EnvoyDo, bind, ret, NewPortForwarder, call.
    now rewrite Hnew.
  - intros fw w1 e w2 Hnew Hstart.
    unfold EnvoyDo, bind, ret, NewPortForwarder, call.
    rewrite Hnew. simpl. now rewrite Hstart.
Qed.

(** C9. [EnvoyDo] does not look at its body argument: two calls that
    differ in it only give the same results and the same state. Every
    request it builds or sends has the nil body. *)
Theorem EnvoyDo_body_ignored (c : client)
    (podName podNamespace method path b1 b2 : string) (st : State) :
  EnvoyDo c podName podNamespace method path b1 st
  = EnvoyDo c podName podNamespace method path b2 st
  /\ exists added : list Event,
       trace (snd (EnvoyDo c podName podNamespace method path b1 st))
       = trace st ++ added
       /\ Forall nilBody added.
Proof.
  split; [reflexivity|].
  run_EnvoyDo; rewrite <- ?app_assoc; simpl;
    eexists; (split; [reflexivity|]); repeat constructor.
Qed.

(** ** The error of [PodExec] *)

Lemma execPrefix_identity (podName podNamespace container : string) :
  strings.Contains (execPrefix podName podNamespace container) podName
  /\ strings.Contains (execPrefix podName podNamespace container) podNamespace
  /\ strings.Contains (execPrefix podName podNamespace container) container.
Proof.
  unfold execPrefix. repeat split.
  - apply Contains_append_l, Contains_append_r, Contains_refl.
  - do 3 apply Contains_append_l. apply Contains_append_r, Contains_refl.
  - do 5 apply Contains_append_l. apply Contains_append_r, Contains_refl.
Qed.

(** C7. When the stream of the remote command fails with the error [e]
    after it wrote [errOut], not empty, to stderr, [PodExec] returns the
    two captured outputs and an error whose text is the exec prefix
    twice, the text of [e], a newline and [errOut]: it contains [errOut]
    as it is, the text of [e], and the names of the pod, the namespace and
    the container. *)
Theorem PodExec_error_has_stderr (c : client)
    (podName podNamespace container command : string) (st : State)
    (tr : Transports) (exec : Executor) (out errOut : string) (e : Err)
    (w : World) :
  roundTripperFor (configOf c st) = inr tr ->
  NewSPDYExecutor tr (mkExecRequest podName podNamespace container command)
  = inr exec ->
  exec_Stream exec (world st) = ((out, errOut, Some e), w) ->
  errOut <> "" ->
  exists msg : string,
    fst (PodExec c podName podNamespace container command st)
    = (out, errOut, Some (errorString msg))
    /\ msg = execPrefix podName podNamespace container
             +:+ execPrefix podName podNamespace container
             +:+ Error e +:+ String "010"%char "" +:+ errOut
    /\ strings.Contains msg errOut
    /\ strings.Contains msg (Error e)
    /\ strings.Contains msg podName
    /\ strings.Contains msg podNamespace
    /\ strings.Contains msg container.
Proof.
  intros Htr Hexec Hstream Herr.
  eexists. split; [|split; [reflexivity|]].
  - unfold PodExec. rewrite Htr, Hexec.
    rewrite (call_eq _ _ _ _ _ Hstream). simpl.
    unfold wrapExecError.
    apply nonEmpty_true in Herr. unfold nonEmpty in Herr. rewrite Herr.
    reflexivity.
  - destruct (execPrefix_identity podName podNamespace container)
      as (Hpod & Hns & Hcont).
    repeat split.
    + do 4 apply Contains_append_l. apply Contains_refl.
    + do 2 apply Contains_append_l. apply Contains_append_r, Contains_refl.
    + apply Contains_append_r, Hpod.
    + apply Contains_append_r, Hns.
    + apply Contains_append_r, Hcont.
Qed.

(** Without captured stderr the error is wrapped once, and a nil error
    stays nil. *)
Lemma wrapExecError_cases (podName podNamespace container : string) (e : Err) :
  wrapExecError podName podNamespace container "" (Some e)
  = Some (errorString (execPrefix podName podNamespace container +:+ Error e))
  /\ forall stderr, wrapExecError podName podNamespace container stderr None = None.
Proof. split; reflexivity. Qed.

(** ** The copy of the configuration *)

(** The operations that hand [c.config] on read the store at that
    location only. *)
Lemma PodExec_heap (c : client) (podName podNamespace container command : string)
    (st : State) (h : gmap loc Config) :
  h !! config c = heap st !! config c ->
  PodExec c podName podNamespace container command (withHeap h st)
  = (fst (PodExec c podName podNamespace container command st),
     withHeap h (snd (PodExec c podName podNamespace container command st))).
Proof.
  intros Hc. unfold PodExec, configOf. simpl. rewrite Hc.
  destruct (roundTripperFor (heap st !! config c)) as [e|tr]; [reflexivity|].
  destruct (NewSPDYExecutor tr _) as [e|exec]; [reflexivity|].
  unfold call. simpl.
  destruct (exec_Stream exec (world st)) as [[[o eo] e] w]. reflexivity.
Qed.

Lemma EnvoyDo_heap (c : client) (podName podNamespace method path body : string)
    (st : State) (h : gmap loc Config) :
  h !! config c = heap st !! config c ->
  EnvoyDo c podName podNamespace method path body (withHeap h st)
  = (fst (EnvoyDo c podName podNamespace method path body st),
     withHeap h (snd (EnvoyDo c podName podNamespace method path body st))).
Proof.
  intros Hc.
  unfold EnvoyDo, defer, bind, ret, NewPortForwarder, http_NewRequest,
    fwClose, closeQuietly, call, after, configOf, withHeap; simpl.
  rewrite Hc. repeat case_answer; reflexivity.
Qed.

Lemma fresh_not_allocated (h : gmap loc Config) : h !! fresh (dom h) = None.
Proof. apply not_elem_of_dom, is_fresh. Qed.

Lemma RESTConfig_eq (c : client) (st : State) (cfg : Config) :
  configOf c st = Some cfg ->
  RESTConfig c st
  = (Some (fresh (dom (heap st))),
     withHeap (<[fresh (dom (heap st)) := cfg]> (heap st)) st).
Proof. unfold configOf, RESTConfig. now intros ->. Qed.

(** C10. [RESTConfig] returns a pointer to a new object: a location that
    held nothing before, so it is neither the client's own pointer nor a
    pointer returned by an earlier call. The object there is a copy of
    the client's configuration, and nothing else changes. After any
    assignment through the returned pointer, the client's configuration is
    what it was, so are all the other objects, [PodExec] and [EnvoyDo]
    (the operations that use the configuration) return what they would
    have returned, and the next call of [RESTConfig] returns one more new
    pointer to a copy of the client's, not of the modified, configuration. *)
Theorem RESTConfig_fresh_copy (c : client) (st : State) (cfg : Config) :
  configOf c st = Some cfg ->
  exists (p : loc) (st1 : State),
    RESTConfig c st = (Some p, st1)
    /\ heap st !! p = None
    /\ p <> config c
    /\ heap st1 !! p = Some cfg
    /\ (forall q, q <> p -> heap st1 !! q = heap st !! q)
    /\ world st1 = world st
    /\ trace st1 = trace st
    /\ forall cfg' : Config,
         let st2 := snd (storeConfig p cfg' st1) in
         configOf c st2 = Some cfg
         /\ (forall q, q <> p -> heap st2 !! q = heap st !! q)
         /\ (forall podName podNamespace container command,
               fst (PodExec c podName podNamespace container command st2)
               = fst (PodExec c podName podNamespace container command st))
         /\ (forall podName podNamespace method path body,
               fst (EnvoyDo c podName podNamespace method path body st2)
               = fst (EnvoyDo c podName podNamespace method path body st))
         /\ exists (p2 : loc) (st3 : State),
              RESTConfig c st2 = (Some p2, st3)
              /\ p2 <> p /\ p2 <> config c
              /\ heap st3 !! p2 = Some cfg
              /\ heap st3 !! p = Some cfg'.
Proof.
  intros Hcfg. pose proof Hcfg as Hc. unfold configOf in Hc.
  set (p := fresh (dom (heap st))).
  assert (Hp : heap st !! p = None) by apply fresh_not_allocated.
  assert (Hne : p <> config c) by (intros Heq; rewrite Heq in Hp; congruence).
  exists p, (withHeap (<[p := cfg]> (heap st)) st).
  split; [now apply RESTConfig_eq|].
  split; [exact Hp|]. split; [exact Hne|].
  split; [apply lookup_insert_eq|].
  split; [intros q Hq; simpl; now rewrite lookup_insert_ne|].
  split; [reflexivity|]. split; [reflexivity|].
  intros cfg' st2.
  set (h2 := <[p := cfg']> (<[p := cfg]> (heap st))).
  assert (Hst2 : st2 = withHeap h2 st) by reflexivity.
  assert (Hh2 : h2 !! config c = heap st !! config c).
  { unfold h2. now rewrite !lookup_insert_ne. }
  assert (Hcfg2 : configOf c st2 = Some cfg).
  { rewrite Hst2. unfold configOf. simpl. now rewrite Hh2. }
  split; [exact Hcfg2|].
  split; [intros q Hq; rewrite Hst2; unfold h2; simpl;
          now rewrite !lookup_insert_ne|].
  split; [intros; rewrite Hst2; now rewrite PodExec_heap|].
  split; [intros; rewrite Hst2; now rewrite EnvoyDo_heap|].
  set (p2 := fresh (dom (heap st2))).
  assert (Hp2 : heap st2 !! p2 = None) by apply fresh_not_allocated.
  assert (Hpp : heap st2 !! p = Some cfg').
  { rewrite Hst2. unfold h2. simpl. apply lookup_insert_eq. }
  assert (Hcc : heap st2 !! config c = Some cfg) by exact Hcfg2.
  exists p2, (withHeap (<[p2 := cfg]> (heap st2)) st2).
  split; [now apply RESTConfig_eq|].
  split; [intros Heq; rewrite Heq in Hp2; congruence|].
  split; [intros Heq; rewrite Heq in Hp2; congruence|].
  split; [apply lookup_insert_eq|].
  simpl. rewrite lookup_insert_ne; [exact Hpp|].
  intros Heq. rewrite Heq in Hp2. congruence.
Qed.

(** A pointer to nothing cannot be copied: the dereference panics. *)
Lemma RESTConfig_nil (c : client) (st : State) :
  configOf c st = None -> RESTConfig c st = (None, st).
Proof. unfold configOf, RESTConfig. now intros ->. Qed.

End Properties.

(** * Further properties of the operations above *)

Section MoreProperties.

Context `{Env}.

(** ** Resolution failures *)

(** X3. A list query that fails makes [GetIstioPods] return no pod and an
    error whose text is ["unable to retrieve Pods: "] followed by the text
    of the failure; [AllDiscoveryDo] and [GetIstioVersions] return that
    error as it is, with a nil result, and probe no pod. *)
Theorem list_failure_propagates (c : client) (ns : string)
    (params : gmap string string) (st : State) (e : Err) (w : World) :
  pods_Do ns (revisionParams c params) (world st) = (DoFailed e, w) ->
  let err := errorString ("unable to retrieve Pods: " +:+ Error e) in
  let st' := after st (EvListPods ns (revisionParams c params)) w in
  GetIstioPods c ns (Some params) st
  = ((Returns ([], Some err), Some (revisionParams c params)), st')
  /\ strings.Contains ("unable to retrieve Pods: " +:+ Error e) (Error e)
  /\ (params = pilotParams ->
      forall path, AllDiscoveryDo c ns path st = ((∅, Some err), st'))
  /\ (params = istioParams ->
      GetIstioVersions c ns st = ((None, Some err), st')).
Proof.
  intros Hdo err st'. pose proof (GetIstioPods_eq _ _ _ _ _ _ Hdo) as Hget.
  split; [now rewrite GetIstioPods_of_map, Hget|].
  split; [apply Contains_append_l, Contains_refl|].
  split; intros ->.
  - intros path. unfold AllDiscoveryDo, bind. now rewrite Hget.
  - unfold GetIstioVersions, bind. now rewrite Hget.
Qed.

(** X4. When the list cannot be decoded, [GetIstioPods] formats
    [res.Error()], which is nil once the query itself succeeded, and not
    the error of [Into]: the text of its error is ["unable to parse
    PodList: <nil>"] whatever the decoding error was, and this is the
    error [AllDiscoveryDo] and [GetIstioVersions] return, having probed
    no pod. *)
Theorem decode_failure_text_lost (c : client) (ns : string)
    (params : gmap string string) (st : State) (e : Err) (w : World) :
  pods_Do ns (revisionParams c params) (world st) = (IntoFailed e, w) ->
  let err := errorString "unable to parse PodList: <nil>" in
  let st' := after st (EvListPods ns (revisionParams c params)) w in
  GetIstioPods c ns (Some params) st
  = ((Returns ([], Some err), Some (revisionParams c params)), st')
  /\ (params = pilotParams ->
      forall path, AllDiscoveryDo c ns path st = ((∅, Some err), st'))
  /\ (params = istioParams ->
      GetIstioVersions c ns st = ((None, Some err), st')).
Proof.
  intros Hdo err st'.
  assert (Hget : GetIstioPodsOfMap c ns params st = (([], Some err), st')).
  { unfold GetIstioPodsOfMap, listPods, bind.
    rewrite (call_eq _ _ _ _ _ Hdo). reflexivity. }
  split; [now rewrite GetIstioPods_of_map, Hget|].
  split; intros ->.
  - intros path. unfold AllDiscoveryDo, bind. now rewrite Hget.
  - unfold GetIstioVersions, bind. now rewrite Hget.
Qed.

(** X5. [GetIstioPods] writes into the map of its caller. With a
    revision, a caller that passes the same map to a second call, as the
    first call left it, gets the revision requirement twice: the selector
    of the second query is the selector of the first query, a comma and
    the revision requirement once more, and that is what the map holds in
    the end. *)
Theorem revision_appended_on_reuse (c : client) (ns : string)
    (params : gmap string string) (st : State) :
  revision c <> "" ->
  let call1 := GetIstioPods c ns (Some params) st in
  let call2 := GetIstioPods c ns (snd (fst call1)) (snd call1) in
  exists (q1 q2 : gmap string string) (first : string),
    trace (snd call2) = trace st ++ [EvListPods ns q1; EvListPods ns q2]
    /\ snd (fst call1) = Some q1
    /\ snd (fst call2) = Some q2
    /\ q1 !! "labelSelector" = Some first
    /\ q2 !! "labelSelector"
       = Some (first +:+ "," +:+ label_IstioRev +:+ "=" +:+ revision c).
Proof.
  intros Hrev call1 call2.
  assert (Hfirst : exists first,
             revisionParams c params !! "labelSelector" = Some first).
  { unfold revisionParams. destruct (decide (revision c = "")); [congruence|].
    destruct (params !! "labelSelector"); rewrite lookup_insert_eq; eauto. }
  destruct Hfirst as [first Hfirst].
  exists (revisionParams c params), (revisionParams c (revisionParams c params)),
    first.
  destruct (pods_Do ns (revisionParams c params) (world st))
    as [r1 w1] eqn:Hdo1.
  destruct (pods_Do ns (revisionParams c (revisionParams c params)) w1)
    as [r2 w2] eqn:Hdo2.
  pose proof (GetIstioPods_eq _ _ _ _ _ _ Hdo1) as H1.
  pose proof (GetIstioPods_eq c ns (revisionParams c params)
                (after st (EvListPods ns (revisionParams c params)) w1)
                r2 w2 Hdo2) as H2.
  assert (E1 : call1 = ((Returns (fst (GetIstioPodsOfMap c ns params st)),
                         Some (revisionParams c params)),
                        after st (EvListPods ns (revisionParams c params)) w1)).
  { unfold call1. rewrite GetIstioPods_of_map. now rewrite H1. }
  unfold call2. rewrite E1. cbn [fst snd].
  rewrite GetIstioPods_of_map. rewrite H2. cbn [fst snd].
  split; [|split; [reflexivity|split; [reflexivity|split; [exact Hfirst|]]]].
  - unfold after. cbn [trace]. now rewrite <- app_assoc.
  - unfold revisionParams at 1.
    destruct (decide (revision c = "")); [congruence|].
    rewrite Hfirst. apply lookup_insert_eq.
Qed.

(** ** The probes of [GetIstioVersions] *)

(** X6. Over a non-empty list of pods [GetIstioVersions] makes the list query
    and then one [/version] probe on port 15014 per pod, in the order of
    the list, whatever the probes answer. *)
Theorem GetIstioVersions_probes_every_pod (c : client) (ns : string)
    (st : State) (pods : list Pod) (w1 : World) :
  pods_Do ns (revisionParams c istioParams) (world st) = (Listed pods, w1) ->
  pods <> [] ->
  trace (snd (GetIstioVersions c ns st))
  = trace st
    ++ EvListPods ns (revisionParams c istioParams)
       :: map (fun pod => EvProxyGet (Name pod) (Namespace pod) "/version" 15014)
              pods.
Proof.
  intros Hdo Hne. rewrite (GetIstioVersions_eq _ _ _ _ _ Hdo Hne). simpl.
  now rewrite <- app_assoc.
Qed.

Lemma failures_nil_iff (prs : list (Pod * (Err + string))) :
  failures prs = [] <-> Forall succeeded prs.
Proof.
  induction prs as [|[pod [err|b]] prs IH]; simpl.
  - split; [constructor | reflexivity].
  - split; [discriminate|]. intros Hall.
    inversion Hall as [|? ? [b Hb] ?]. discriminate.
  - rewrite IH. split.
    + intros Hall. constructor; [now exists b | exact Hall].
    + intros Hall. now inversion Hall.
Qed.

(** X7. The error of [GetIstioVersions] over a non-empty list of pods is nil
    exactly when no probe failed. *)
Theorem GetIstioVersions_nil_error_iff (c : client) (ns : string)
    (st : State) (pods : list Pod) (w1 : World) :
  pods_Do ns (revisionParams c istioParams) (world st) = (Listed pods, w1) ->
  pods <> [] ->
  snd (fst (GetIstioVersions c ns st)) = None
  <-> Forall succeeded (probeAll "/version" 15014 pods w1).
Proof.
  intros Hdo Hne. rewrite (GetIstioVersions_eq _ _ _ _ _ Hdo Hne). simpl.
  rewrite <- failures_nil_iff. unfold combined.
  destruct (failures _); split; congruence.
Qed.

Lemma collect_all_empty (prs : list (Pod * (Err + string)))
    (m : gmap string string) :
  Forall (fun pr => snd pr = inr "") prs -> collect prs m = m.
Proof.
  induction 1 as [|[pod r] prs Hr _ IH]; [reflexivity|].
  simpl in Hr. subst r. unfold collect in *. simpl. exact IH.
Qed.

Lemma contributions_all_empty (prs : list (Pod * (Err + string))) :
  Forall (fun pr => snd pr = inr "") prs ->
  contributions prs = [] /\ failures prs = [].
Proof.
  induction 1 as [|[pod r] prs Hr _ [IHc IHf]]; [split; reflexivity|].
  simpl in Hr. subst r. simpl. now rewrite IHc, IHf.
Qed.

(** X8. When every pod of a non-empty list answers its probe with an empty
    payload, both fan-outs succeed with nothing: [AllDiscoveryDo] returns
    the empty map and [GetIstioVersions] a pointer to an empty
    [MeshInfo], each with a nil error. *)
Theorem fan_out_empty_success (c : client) (ns : string) (st : State)
    (pods : list Pod) (w1 : World) :
  pods <> [] ->
  (forall path,
     pods_Do ns (revisionParams c pilotParams) (world st) = (Listed pods, w1) ->
     Forall (fun pr => snd pr = inr "") (probeAll path 8080 pods w1) ->
     fst (AllDiscoveryDo c ns path st) = (∅, None))
  /\ (pods_Do ns (revisionParams c istioParams) (world st) = (Listed pods, w1) ->
      Forall (fun pr => snd pr = inr "") (probeAll "/version" 15014 pods w1) ->
      fst (GetIstioVersions c ns st) = (Some [], None)).
Proof.
  intros Hne. split.
  - intros path Hdo Hall.
    unfold AllDiscoveryDo, bind. rewrite (GetIstioPods_eq _ _ _ _ _ _ Hdo).
    destruct pods as [|pod rest]; [congruence|].
    change (length (pod :: rest) =? 0)%nat with false. cbv beta iota.
    rewrite discoveryLoop_ok.
    + simpl. now rewrite collect_all_empty.
    + simpl. eapply Forall_impl; [exact Hall|].
      intros [p r] Hr. simpl in Hr. subst r. now exists "".
  - intros Hdo Hall. rewrite (GetIstioVersions_eq _ _ _ _ _ Hdo Hne). simpl.
    destruct (contributions_all_empty _ Hall) as [-> ->]. reflexivity.
Qed.

(** ** The errors of [EnvoyDo] and of [PodExec] *)

Ltac case_collaborator :=
  match goal with
  | |- context [newPortForwarder ?a ?b ?c ?d ?e ?f ?w] =>
      destruct (newPortForwarder a b c d e f w) as [[?|?] ?] eqn:?
  | |- context [fw_Start ?fw ?w] =>
      destruct (fw_Start fw w) as [[?|] ?] eqn:?
  | |- context [http_NewRequest_err ?m ?u] =>
      destruct (http_NewRequest_err m u) as [?|] eqn:?
  | |- context [http_Do ?r ?w] =>
      destruct (http_Do r w) as [[?|?] ?] eqn:?
  | |- context [ioutil_ReadAll ?r ?w] =>
      destruct (ioutil_ReadAll r w) as [[?|?] ?] eqn:?
  end; simpl.

(** X10. Whenever [EnvoyDo] returns an error, it returns no bytes with it.
    The error is the one of making the forwarder, as it is, or a text
    that starts with ["failure running port forward process: "]. *)
Theorem EnvoyDo_error_shape (c : client)
    (podName podNamespace method path body : string) (st : State) (e : error) :
  snd (fst (EnvoyDo c podName podNamespace method path body st)) = Some e ->
  fst (fst (EnvoyDo c podName podNamespace method path body st)) = ""
  /\ ((exists err,
         e = extError err
         /\ fst (newPortForwarder (configOf c st) podName podNamespace
                   "127.0.0.1" 0 15000 (world st)) = inl err)
      \/ exists err,
           e = errorString ("failure running port forward process: " +:+ Error err)).
Proof.
  unfold EnvoyDo, defer, bind, ret, NewPortForwarder, http_NewRequest,
    fwClose, closeQuietly, call, after, formatError; simpl.
  repeat case_collaborator; intros He; try discriminate;
    injection He as <-; (split; [reflexivity|]); eauto.
Qed.

(** X11. Every error [PodExec] returns is a text that starts with
    ["error exec'ing into <pod>/<namespace> <container> container: "];
    no error of a collaborator is returned as it is. *)
Theorem PodExec_errors_prefixed (c : client)
    (podName podNamespace container command : string) (st : State) (e : error) :
  snd (fst (PodExec c podName podNamespace container command st)) = Some e ->
  exists rest : string,
    e = errorString (execPrefix podName podNamespace container +:+ rest).
Proof.
  unfold PodExec, wrapExecError.
  destruct (roundTripperFor (configOf c st)) as [err|tr]; simpl.
  - intros He. injection He as <-. eauto.
  - destruct (NewSPDYExecutor tr _) as [err|exec]; simpl.
    + intros He. injection He as <-. eauto.
    + unfold call.
      destruct (exec_Stream exec (world st)) as [[[out errOut] [err|]] w];
        simpl; [|discriminate].
      intros He. injection He as <-. eauto.
Qed.

(** X12. When the transport or the executor cannot be made, [PodExec] returns
    empty outputs and the error wrapped once, and streams nothing: the
    state is as before. *)
Theorem PodExec_setup_failure (c : client)
    (podName podNamespace container command : string) (st : State) (e : Err) :
  roundTripperFor (configOf c st) = inl e
  \/ (exists tr,
        roundTripperFor (configOf c st) = inr tr
        /\ NewSPDYExecutor tr
             (mkExecRequest podName podNamespace container command) = inl e) ->
  PodExec c podName podNamespace container command st
  = (("", "",
      Some (errorString (execPrefix podName podNamespace container +:+ Error e))),
     st).
Proof.
  intros [Htr | (tr & Htr & Hexec)]; unfold PodExec; rewrite Htr.
  - reflexivity.
  - rewrite Hexec. reflexivity.
Qed.

End MoreProperties.

(** * Properties of the logs, the selectors and the YAML operations *)

(** ** Splitting a joined list *)

(** A string without the separator is its own single segment. *)
Lemma Split_without_sep (x : string) (sep : ascii) :
  (forall pre post, x <> pre +:+ String sep post) ->
  strings.Split x sep = [x].
Proof.
  induction x as [|c x IH]; intros Hx; [reflexivity|]. simpl.
  destruct (Ascii.eqb_spec c sep) as [->|Hc].
  - exfalso. exact (Hx "" x eq_refl).
  - rewrite IH; [reflexivity|].
    intros pre post Heq. apply (Hx (String c pre) post).
    now rewrite append_cons, Heq.
Qed.

Lemma Split_app_sep (x rest : string) (sep : ascii) :
  (forall pre post, x <> pre +:+ String sep post) ->
  strings.Split (x +:+ String sep rest) sep = x :: strings.Split rest sep.
Proof.
  induction x as [|c x IH]; intros Hx.
  - rewrite append_nil_l. simpl. now rewrite Ascii.eqb_refl.
  - rewrite append_cons. simpl.
    destruct (Ascii.eqb_spec c sep) as [->|Hc].
    + exfalso. exact (Hx "" x eq_refl).
    + rewrite IH; [reflexivity|].
      intros pre post Heq. apply (Hx (String c pre) post).
      now rewrite append_cons, Heq.
Qed.

(** Joining strings that do not contain the separator and splitting the
    result gives the strings back. *)
Lemma Split_Join (l : list string) (sep : ascii) :
  l <> [] ->
  Forall (fun x => forall pre post, x <> pre +:+ String sep post) l ->
  strings.Split (strings.Join l (String sep "")) sep = l.
Proof.
  induction l as [|x l IH]; [congruence|]. intros _ Hall.
  inversion Hall as [|? ? Hx Hl]; subst.
  destruct l as [|y l].
  - simpl. now apply Split_without_sep.
  - rewrite Join_cons, append_cons, append_nil_l.
    rewrite Split_app_sep by exact Hx.
    now rewrite IH.
Qed.

(** Splitting at a separator splits what is before it and what is after
    it. *)
Lemma Split_sep_app (x rest : string) (sep : ascii) :
  strings.Split (x +:+ String sep rest) sep
  = strings.Split x sep ++ strings.Split rest sep.
Proof.
  induction x as [|c x IH].
  - simpl. now rewrite Ascii.eqb_refl.
  - rewrite append_cons. simpl. rewrite IH.
    destruct (Ascii.eqb c sep); [reflexivity|].
    pose proof (Split_not_nil x sep) as Hx.
    destruct (strings.Split x sep) as [|seg segs]; [congruence | reflexivity].
Qed.

(** Splitting a join gives the segments of the elements, one element
    after the other. *)
Lemma Split_Join_concat (l : list string) (sep : ascii) :
  l <> [] ->
  strings.Split (strings.Join l (String sep "")) sep
  = concat (map (fun x => strings.Split x sep) l).
Proof.
  induction l as [|x l IH]; [congruence|]. intros _.
  destruct l as [|y l].
  - simpl. now rewrite app_nil_r.
  - rewrite Join_cons.
    change (String sep "" +:+ strings.Join (y :: l) (String sep ""))
      with (String sep (strings.Join (y :: l) (String sep ""))).
    rewrite Split_sep_app, IH by discriminate. reflexivity.
Qed.

Section ToolProperties.

Context `{Tools}.

Lemma opCall_eq {A} (ev : OpEvent) (f : World -> A * World) (st : OpState) a w :
  f (opWorld st) = (a, w) -> opCall ev f st = (a, opAfter st ev w).
Proof. intros Hf. unfold opCall. now rewrite Hf. Qed.

(** ** [PodLogs] *)

(** X13. Once the log stream is open, [PodLogs] copies it and closes it, and
    the closing is its last call, also when the copy fails. A copy that
    fails gives the empty text with the error as it is, not the part
    copied so far. *)
Theorem PodLogs_closes_stream (c : client) (podName podNamespace container : string)
    (previousLog : bool) (st : OpState) (res : LogStream) (w1 : World) :
  logs_Stream podNamespace podName (mkPodLogOptions container previousLog)
    (opWorld st) = (inr res, w1) ->
  opTrace (snd (PodLogs c podName podNamespace container previousLog st))
  = opTrace st
    ++ [OpLogsStream podNamespace podName (mkPodLogOptions container previousLog);
        OpCopy res; OpStreamClose res]
  /\ fst (PodLogs c podName podNamespace container previousLog st)
     = match fst (io_Copy res w1) with
       | (text, None) => (text, None)
       | (_, Some e) => ("", Some (extError e))
       end.
Proof.
  intros Hs. unfold PodLogs, opDefer, opBind.
  rewrite (opCall_eq _ _ _ _ _ Hs). unfold opCall, opRet, opAfter. simpl.
  destruct (io_Copy res w1) as [[text [e|]] w2]; simpl;
    rewrite <- !app_assoc; split; reflexivity.
Qed.

(** X14. When the log stream cannot be opened, [PodLogs] returns the empty
    text and the error as it is, and neither copies nor closes. *)
Theorem PodLogs_stream_failure (c : client)
    (podName podNamespace container : string) (previousLog : bool)
    (st : OpState) (e : Err) (w1 : World) :
  logs_Stream podNamespace podName (mkPodLogOptions container previousLog)
    (opWorld st) = (inl e, w1) ->
  PodLogs c podName podNamespace container previousLog st
  = (("", Some (extError e)),
     opAfter st
       (OpLogsStream podNamespace podName (mkPodLogOptions container previousLog))
       w1).
Proof.
  intros Hs. unfold PodLogs, opBind. now rewrite (opCall_eq _ _ _ _ _ Hs).
Qed.

(** ** [PodsForSelector] *)

(** X15. [PodsForSelector] makes exactly one list call, whatever the
    selectors, with the selectors joined with commas as its label
    selector, and returns the list and the error of that call as they
    are. Without a selector the label selector is empty; otherwise,
    split at the commas, it gives the comma-separated parts of the
    selectors one after the other, which are the selectors themselves
    when none contains a comma. *)
Theorem PodsForSelector_selector (c : client) (namespace : string)
    (labelSelectors : list string) (st : OpState) :
  let sel := strings.Join labelSelectors "," in
  let r := pods_List namespace sel (opWorld st) in
  PodsForSelector c namespace labelSelectors st
  = ((fst (fst r), option_map extError (snd (fst r))),
     {| opWorld := snd r;
        opTrace := opTrace st ++ [OpPodsList namespace sel] |})
  /\ (labelSelectors = [] -> sel = "")
  /\ (labelSelectors <> [] ->
      strings.Split sel ","
      = concat (map (fun s => strings.Split s ",") labelSelectors))
  /\ (labelSelectors <> [] ->
      Forall (fun s => forall pre post, s <> pre +:+ String "," post)
             labelSelectors ->
      strings.Split sel "," = labelSelectors).
Proof.
  intros sel r. split; [|split; [|split]].
  - unfold PodsForSelector, opBind, opCall, opRet, opAfter. fold sel. fold r.
    now destruct r as [[l e] w].
  - now intros ->.
  - intros Hne. now apply Split_Join_concat.
  - intros Hne Hall. now apply Split_Join.
Qed.

(** Without a selector the label selector of the call is empty. *)
Lemma PodsForSelector_no_selector (c : client) (namespace : string)
    (st : OpState) :
  opTrace (snd (PodsForSelector c namespace [] st))
  = opTrace st ++ [OpPodsList namespace ""].
Proof.
  unfold PodsForSelector, opBind, opCall, opRet. simpl.
  now destruct (pods_List namespace "" (opWorld st)) as [[l e] w].
Qed.

(** ** The files that are applied or deleted *)

Lemma isEmptyFile_false (f : string) (w : World) :
  isEmptyFile f w = false
  <-> exists size, os_Stat f w = inr size /\ size <> 0%Z.
Proof.
  unfold isEmptyFile. destruct (os_Stat f w) as [e|size].
  - split; [discriminate | intros (s & Hs & _); discriminate].
  - destruct (Z.eqb_spec size 0) as [->|Hne].
    + split; [discriminate|]. intros (s & Hs & Hne).
      injection Hs as <-. congruence.
    + split; [eauto|reflexivity].
Qed.

(** X16. [removeEmptyFiles] keeps the files whose [Stat] succeeds with a
    size other than 0, each as many times as it is given and in the order
    given: it is the filter of the list by that test, so it goes through
    a list made of two parts part by part, and a file given twice is kept
    twice or not at all. Filtering again changes nothing. *)
Theorem removeEmptyFiles_keeps (files : list string) (w : World) :
  removeEmptyFiles files w
  = List.filter (fun f => match os_Stat f w with
                          | inr size => negb (size =? 0)%Z
                          | inl _ => false
                          end) files
  /\ (forall more, removeEmptyFiles (files ++ more) w
                   = removeEmptyFiles files w ++ removeEmptyFiles more w)
  /\ (forall f, f ∈ removeEmptyFiles files w
                <-> f ∈ files /\ exists size, os_Stat f w = inr size /\ size <> 0%Z)
  /\ sublist (removeEmptyFiles files w) files
  /\ removeEmptyFiles (removeEmptyFiles files w) w = removeEmptyFiles files w.
Proof.
  split; [|split; [|split; [|split]]].
  - induction files as [|g files IH]; simpl; [reflexivity|].
    unfold isEmptyFile. rewrite IH.
    destruct (os_Stat g w) as [e|size]; [reflexivity|].
    now destruct (size =? 0)%Z.
  - intros more. induction files as [|g files IH]; simpl; [reflexivity|].
    destruct (isEmptyFile g w); [exact IH | now rewrite IH].
  - intros f. induction files as [|g files IH]; simpl.
    + split; [inversion 1 | intros [Hin _]; inversion Hin].
    + destruct (isEmptyFile g w) eqn:Hg.
      * rewrite IH. split.
        -- intros [Hin Hs]. split; [now apply list_elem_of_further | exact Hs].
        -- intros [Hin Hs]. split; [|exact Hs].
           apply elem_of_cons in Hin as [->|Hin]; [|exact Hin].
           apply isEmptyFile_false in Hs. congruence.
      * rewrite !elem_of_cons, IH. split.
        -- intros [->|[Hin Hs]].
           ++ split; [now left | now apply isEmptyFile_false].
           ++ split; [now right | exact Hs].
        -- intros [[->|Hin] Hs]; [now left | right; now split].
  - induction files as [|g files IH]; simpl; [constructor|].
    destruct (isEmptyFile g w); now constructor.
  - induction files as [|g files IH]; simpl; [reflexivity|].
    destruct (isEmptyFile g w) eqn:Hg; [exact IH|].
    simpl. now rewrite Hg, IH.
Qed.

(** ** The YAML operations *)

(** One answer of the factory or of kubectl, by cases. *)
Ltac case_factory :=
  match goal with
  | |- context [factory_Namespace ?w] =>
      destruct (factory_Namespace w) as [[[? ?] [?|]] ?] eqn:?
  | |- context [factory_DynamicClient ?w] =>
      destruct (factory_DynamicClient w) as [[?|?] ?] eqn:?
  | |- context [factory_ToDiscoveryClient ?w] =>
      destruct (factory_ToDiscoveryClient w) as [[?|?] ?] eqn:?
  | |- context [(0 <? String.length ?n)%nat] =>
      destruct (0 <? String.length n)%nat eqn:?
  | |- context [factory_OpenAPISchema ?w] =>
      destruct (factory_OpenAPISchema w) as [? ?] eqn:?
  | |- context [factory_Validator ?b ?w] =>
      destruct (factory_Validator b w) as [[?|?] ?] eqn:?
  | |- context [builder_Do ?a ?b ?c ?w] =>
      destruct (builder_Do a b c w) as [? ?] eqn:?
  | |- context [result_Err ?r] =>
      destruct (result_Err r) as [?|] eqn:?
  | |- context [factory_ToRESTMapper ?w] =>
      destruct (factory_ToRESTMapper w) as [[?|?] ?] eqn:?
  | |- context [apply_Run ?o ?w] =>
      destruct (apply_Run o w) as [[[[?|] ?] ?] ?] eqn:?
  | |- context [delete_RunDelete ?o ?w] =>
      destruct (delete_RunDelete o w) as [[[[?|] ?] ?] ?] eqn:?
  end; simpl.

Ltac run_apply :=
  unfold applyYAMLFile, opBind, opCall, opRet, opAfter; simpl;
  repeat case_factory.

Ltac run_delete :=
  unfold deleteFile, opBind, opCall, opRet, opAfter; simpl;
  repeat case_factory.

Ltac added_events :=
  rewrite <- ?app_assoc; simpl; eexists; split; [reflexivity|].

Lemma applyYAMLFile_events (c : client) (namespace : string) (dryRun : bool)
    (file : string) (files : list string) (st : OpState) :
  file ∈ files ->
  exists added,
    opTrace (snd (applyYAMLFile c namespace dryRun file st)) = opTrace st ++ added
    /\ Forall (applyEventOk dryRun files) added.
Proof.
  intros Hin. run_apply; added_events;
    repeat constructor; eauto.
Qed.

Lemma deleteFile_events (c : client) (namespace : string) (dryRun : bool)
    (file : string) (files : list string) (st : OpState) :
  file ∈ files ->
  exists added,
    opTrace (snd (deleteFile c namespace dryRun file st)) = opTrace st ++ added
    /\ Forall (deleteEventOk dryRun files) added.
Proof.
  intros Hin. run_delete; added_events;
    repeat constructor; simpl; eauto.
Qed.

Lemma deleteFile_plain (c : client) (namespace : string) (dryRun : bool)
    (file : string) (st : OpState) (e : error) :
  fst (deleteFile c namespace dryRun file st) = Some e -> plain e.
Proof.
  run_delete; intros He; try discriminate;
    injection He as <-; exact I.
Qed.

Lemma applyLoop_events (c : client) (namespace : string) (dryRun : bool)
    (files fs : list string) (st : OpState) :
  (forall f, f ∈ fs -> f ∈ files) ->
  exists added,
    opTrace (snd (applyLoop c namespace dryRun fs st)) = opTrace st ++ added
    /\ Forall (applyEventOk dryRun files) added.
Proof.
  revert st. induction fs as [|f fs IH]; intros st Hsub; simpl.
  - exists []. split; [now rewrite app_nil_r | constructor].
  - unfold opBind.
    destruct (applyYAMLFile_events c namespace dryRun f files st)
      as (a1 & Ht1 & Ha1); [apply Hsub, list_elem_of_here|].
    destruct (applyYAMLFile c namespace dryRun f st) as [[e|] st1]; simpl in *.
    + exists a1. split; assumption.
    + destruct (IH st1) as (a2 & Ht2 & Ha2).
      { intros g Hg. now apply Hsub, list_elem_of_further. }
      exists (a1 ++ a2). rewrite Ht2, Ht1, app_assoc.
      split; [reflexivity | now apply Forall_app].
Qed.

Lemma deleteLoop_events (c : client) (namespace : string) (dryRun : bool)
    (files fs : list string) (err : option error) (st : OpState) :
  (forall f, f ∈ fs -> f ∈ files) ->
  exists added,
    opTrace (snd (deleteLoop c namespace dryRun fs err st)) = opTrace st ++ added
    /\ Forall (deleteEventOk dryRun files) added.
Proof.
  revert err st. induction fs as [|f fs IH]; intros err st Hsub; simpl.
  - exists []. split; [now rewrite app_nil_r | constructor].
  - unfold opBind.
    destruct (deleteFile_events c namespace dryRun f files st)
      as (a1 & Ht1 & Ha1); [apply Hsub, list_elem_of_here|].
    destruct (deleteFile c namespace dryRun f st) as [e st1]; simpl in *.
    destruct (IH (ErrorOrNil (multierror_AppendNilable err e)) st1)
      as (a2 & Ht2 & Ha2).
    { intros g Hg. now apply Hsub, list_elem_of_further. }
    exists (a1 ++ a2). rewrite Ht2, Ht1, app_assoc.
    split; [reflexivity | now apply Forall_app].
Qed.

(** X20. Every run of kubectl that the four YAML operations make is for one
    file, one that [Stat] found with content when the operation began.
    The dry-run operations run with the server dry-run strategy only, the
    two others with none. The apply operations call nothing of a deletion
    and the delete operations nothing of an apply. *)
Theorem yaml_runs_are_for_kept_files (c : client) (namespace : string)
    (dryRun : bool) (yamlFiles : list string) (st : OpState) :
  let kept := removeEmptyFiles yamlFiles (opWorld st) in
  (exists added,
     opTrace (snd ((if dryRun then ApplyYAMLFilesDryRun else ApplyYAMLFiles)
                     c namespace yamlFiles st))
     = opTrace st ++ added
     /\ Forall (applyEventOk dryRun kept) added)
  /\ (exists added,
        opTrace (snd ((if dryRun then DeleteYAMLFilesDryRun else DeleteYAMLFiles)
                        c namespace yamlFiles st))
        = opTrace st ++ added
        /\ Forall (deleteEventOk dryRun kept) added).
Proof.
  intros kept. split; destruct dryRun.
  - now apply applyLoop_events.
  - now apply applyLoop_events.
  - now apply deleteLoop_events.
  - now apply deleteLoop_events.
Qed.

Lemma applyLoop_ok (c : client) (namespace : string) (dryRun : bool)
    (files : list string) (st : OpState) :
  Forall (fun r => r = None)
         (resultsAll (applyYAMLFile c namespace dryRun) files st) ->
  applyLoop c namespace dryRun files st
  = (None, afterAll (applyYAMLFile c namespace dryRun) files st).
Proof.
  revert st. induction files as [|f files IH]; intros st Hok; simpl in *.
  - reflexivity.
  - inversion Hok as [|? ? Hf Hrest]; subst. unfold opBind.
    destruct (applyYAMLFile c namespace dryRun f st) as [r st1].
    simpl in *. subst r. now apply IH.
Qed.

Lemma applyLoop_fail (c : client) (namespace : string) (dryRun : bool)
    (pre : list string) (f : string) (post : list string) (st : OpState)
    (e : error) :
  Forall (fun r => r = None)
         (resultsAll (applyYAMLFile c namespace dryRun) pre st) ->
  fst (applyYAMLFile c namespace dryRun f
         (afterAll (applyYAMLFile c namespace dryRun) pre st)) = Some e ->
  applyLoop c namespace dryRun (pre ++ f :: post) st
  = (Some e,
     snd (applyYAMLFile c namespace dryRun f
            (afterAll (applyYAMLFile c namespace dryRun) pre st))).
Proof.
  revert st. induction pre as [|g pre IH]; intros st Hok Hf; simpl in *.
  - unfold opBind.
    destruct (applyYAMLFile c namespace dryRun f st) as [r st1].
    simpl in *. now subst r.
  - inversion Hok as [|? ? Hg Hrest]; subst. unfold opBind.
    destruct (applyYAMLFile c namespace dryRun g st) as [r st1].
    simpl in *. subst r. now apply IH.
Qed.

(** X18. [ApplyYAMLFiles] and [ApplyYAMLFilesDryRun] apply the kept files in
    their order and stop at the first that fails: its error is returned
    as it is and the state is the one that file left, so the files after
    it are not applied. When no file fails the result is nil and every
    kept file was applied. *)
Theorem ApplyYAMLFiles_fail_fast (c : client) (namespace : string)
    (dryRun : bool) (yamlFiles : list string) (st : OpState) :
  let kept := removeEmptyFiles yamlFiles (opWorld st) in
  let step := applyYAMLFile c namespace dryRun in
  let run := (if dryRun then ApplyYAMLFilesDryRun else ApplyYAMLFiles)
               c namespace yamlFiles st in
  (Forall (fun r => r = None) (resultsAll step kept st) ->
   run = (None, afterAll step kept st))
  /\ (forall pre f post e,
        kept = pre ++ f :: post ->
        Forall (fun r => r = None) (resultsAll step pre st) ->
        fst (step f (afterAll step pre st)) = Some e ->
        run = (Some e, snd (step f (afterAll step pre st)))).
Proof.
  intros kept step run.
  assert (Hrun : run = applyLoop c namespace dryRun kept st)
    by (unfold run; now destruct dryRun).
  rewrite Hrun. split.
  - apply applyLoop_ok.
  - intros pre f post e -> Hpre Hf. now apply applyLoop_fail.
Qed.

(** The error kept by the loop of the delete operations, for the results
    [rs] of the files so far. *)
Lemma delete_errors_fold (rs : list (option error)) (l : list error) :
  Forall (fun r => forall e, r = Some e -> plain e) rs ->
  fold_left (fun acc e => ErrorOrNil (multierror_AppendNilable acc e)) rs
            (combined l)
  = combined (l ++ omap id rs).
Proof.
  revert l. induction rs as [|r rs IH]; intros l Hrs; simpl.
  - now rewrite app_nil_r.
  - inversion Hrs as [|? ? Hr Hrest]; subst.
    assert (Hstep : ErrorOrNil (multierror_AppendNilable (combined l) r)
                    = combined (l ++ match r with Some e => [e] | None => [] end)).
    { destruct r as [e|].
      - specialize (Hr e eq_refl).
        destruct l as [|x l]; destruct e; simpl in *; try contradiction;
          try reflexivity;
          destruct l; reflexivity.
      - rewrite app_nil_r. destruct l as [|x l]; reflexivity. }
    rewrite Hstep, IH by exact Hrest.
    destruct r as [e|]; simpl; [now rewrite <- app_assoc | now rewrite app_nil_r].
Qed.

Lemma deleteLoop_eq (c : client) (namespace : string) (dryRun : bool)
    (files : list string) (err : option error) (st : OpState) :
  deleteLoop c namespace dryRun files err st
  = (fold_left (fun acc e => ErrorOrNil (multierror_AppendNilable acc e))
       (resultsAll (deleteFile c namespace dryRun) files st) err,
     afterAll (deleteFile c namespace dryRun) files st).
Proof.
  revert err st. induction files as [|f files IH]; intros err st; simpl.
  - reflexivity.
  - unfold opBind.
    destruct (deleteFile c namespace dryRun f st) as [e st1]. simpl.
    apply IH.
Qed.

Lemma resultsAll_delete_plain (c : client) (namespace : string) (dryRun : bool)
    (files : list string) (st : OpState) :
  Forall (fun r => forall e, r = Some e -> plain e)
         (resultsAll (deleteFile c namespace dryRun) files st).
Proof.
  revert st. induction files as [|f files IH]; intros st; simpl; constructor.
  - intros e He. eapply deleteFile_plain. exact He.
  - apply IH.
Qed.

(** X19. [DeleteYAMLFiles] and [DeleteYAMLFilesDryRun] delete every kept file,
    whatever the earlier ones gave: the state is the one after all of
    them, and the result is the multi-error of the failures in the order
    of the files, nil exactly when no file failed. *)
Theorem DeleteYAMLFiles_collect_all (c : client) (namespace : string)
    (dryRun : bool) (yamlFiles : list string) (st : OpState) :
  let kept := removeEmptyFiles yamlFiles (opWorld st) in
  let results := resultsAll (deleteFile c namespace dryRun) kept st in
  let run := (if dryRun then DeleteYAMLFilesDryRun else DeleteYAMLFiles)
               c namespace yamlFiles st in
  run = (combined (omap id results),
         afterAll (deleteFile c namespace dryRun) kept st)
  /\ (fst run = None <-> Forall (fun r => r = None) results).
Proof.
  intros kept results run.
  assert (Hrun : run = (combined (omap id results),
                        afterAll (deleteFile c namespace dryRun) kept st)).
  { assert (Hloop : run = deleteLoop c namespace dryRun kept None st)
      by (unfold run; now destruct dryRun).
    rewrite Hloop, deleteLoop_eq. f_equal.
    exact (delete_errors_fold _ [] (resultsAll_delete_plain _ _ _ _ _)). }
  split; [exact Hrun|]. rewrite Hrun. simpl.
  clear. induction results as [|[e|] rs IH]; simpl.
  - split; [constructor | reflexivity].
  - split; [discriminate|]. intros Hall. inversion Hall. discriminate.
  - rewrite IH. split.
    + intros Hall. now constructor.
    + intros Hall. now inversion Hall.
Qed.

Lemma removeEmptyFiles_all_empty (files : list string) (w : World) :
  Forall (fun f => isEmptyFile f w = true) files ->
  removeEmptyFiles files w = [].
Proof.
  induction 1 as [|f files Hf _ IH]; simpl; [reflexivity|]. now rewrite Hf.
Qed.

(** X17. When every file given is missing or empty (or no file is given), the
    four YAML operations return nil and call nothing. *)
Theorem yaml_operations_skip_empty_files (c : client) (namespace : string)
    (yamlFiles : list string) (st : OpState) :
  Forall (fun f => isEmptyFile f (opWorld st) = true) yamlFiles ->
  ApplyYAMLFiles c namespace yamlFiles st = (None, st)
  /\ ApplyYAMLFilesDryRun c namespace yamlFiles st = (None, st)
  /\ DeleteYAMLFiles c namespace yamlFiles st = (None, st)
  /\ DeleteYAMLFilesDryRun c namespace yamlFiles st = (None, st).
Proof.
  intros Hall.
  unfold ApplyYAMLFiles, ApplyYAMLFilesDryRun, DeleteYAMLFiles,
    DeleteYAMLFilesDryRun.
  rewrite (removeEmptyFiles_all_empty _ _ Hall). repeat split.
Qed.

(** X21. With a namespace given, [applyYAMLFile] does not ask the kubeconfig
    for one: every run is for the given namespace, enforced. *)
Theorem applyYAMLFile_explicit_namespace (c : client) (namespace : string)
    (dryRun : bool) (file : string) (st : OpState) :
  namespace <> "" ->
  exists added,
    opTrace (snd (applyYAMLFile c namespace dryRun file st)) = opTrace st ++ added
    /\ Forall (fun ev =>
                 match ev with
                 | OpNamespace => False
                 | OpApplyRun o =>
                     aoNamespace o = namespace /\ aoEnforceNamespace o = true
                 | _ => True
                 end) added.
Proof.
  intros Hns. apply nonEmpty_true in Hns. unfold nonEmpty in Hns.
  unfold applyYAMLFile, opBind, opCall, opRet, opAfter; simpl.
  rewrite Hns. repeat case_factory; added_events; repeat constructor.
Qed.

(** X22. [deleteFile] asks the kubeconfig for its namespace first, also when
    a namespace is given: when that fails, [deleteFile] fails with that
    error and calls nothing else. *)
Theorem deleteFile_needs_kubeconfig_namespace (c : client) (namespace : string)
    (dryRun : bool) (file : string) (st : OpState) (n : string) (b : bool)
    (e : Err) (w : World) :
  factory_Namespace (opWorld st) = ((n, b, Some e), w) ->
  deleteFile c namespace dryRun file st
  = (Some (extError e), opAfter st OpNamespace w).
Proof.
  intros Hn. unfold deleteFile, opBind.
  now rewrite (opCall_eq _ _ _ _ _ Hn).
Qed.

(** X23. The namespace [deleteFile] works in is the one given when there is
    one, enforced, and else the one of the kubeconfig with its flag; the
    flag is also the cluster-scope warning of the deletion. The deletion
    cascades, waits, ignores what is not found and has the grace period
    -1. *)
Theorem deleteFile_namespace (c : client) (namespace : string)
    (dryRun : bool) (file : string) (st : OpState) (n : string) (b : bool)
    (w : World) :
  factory_Namespace (opWorld st) = ((n, b, None), w) ->
  let ns := if nonEmpty namespace then namespace else n in
  let enforce := if nonEmpty namespace then true else b in
  exists added,
    opTrace (snd (deleteFile c namespace dryRun file st)) = opTrace st ++ added
    /\ Forall (fun ev =>
                 match ev with
                 | OpBuilderDo ns' enforce' _ => ns' = ns /\ enforce' = enforce
                 | OpRunDelete o =>
                     doWarnClusterScope o = enforce
                     /\ doCascade o = true /\ doWaitForDeletion o = true
                     /\ doIgnoreNotFound o = true /\ doGracePeriod o = (-1)%Z
                 | _ => True
                 end) added.
Proof.
  intros Hn ns enforce. unfold ns, enforce, nonEmpty.
  unfold deleteFile, opBind. rewrite (opCall_eq _ _ _ _ _ Hn).
  unfold opCall, opRet, opAfter; simpl.
  repeat case_factory; added_events; repeat constructor.
Qed.

(** X24. An error of [applyYAMLFile] or of [deleteFile] is the error of a
    collaborator as it is, or the one of a failed run of kubectl: the
    text of the run's error, [": "], and what the run wrote to stdout and
    then to stderr. *)
Theorem yaml_run_error_text (c : client) (namespace : string) (dryRun : bool)
    (file : string) (st : OpState) (e : error) :
  (fst (applyYAMLFile c namespace dryRun file st) = Some e ->
   (exists err, e = extError err)
   \/ exists o w w' err out errOut,
        apply_Run o w = ((Some err, out, errOut), w')
        /\ e = errorString (Error err +:+ ": " +:+ out +:+ errOut)
        /\ strings.Contains (Error err +:+ ": " +:+ out +:+ errOut) out
        /\ strings.Contains (Error err +:+ ": " +:+ out +:+ errOut) errOut)
  /\ (fst (deleteFile c namespace dryRun file st) = Some e ->
      (exists err, e = extError err)
      \/ exists o w w' err out errOut,
           delete_RunDelete o w = ((Some err, out, errOut), w')
           /\ e = errorString (Error err +:+ ": " +:+ out +:+ errOut)
           /\ strings.Contains (Error err +:+ ": " +:+ out +:+ errOut) out
           /\ strings.Contains (Error err +:+ ": " +:+ out +:+ errOut) errOut).
Proof.
  assert (Hc : forall a out errOut,
             strings.Contains (a +:+ ": " +:+ out +:+ errOut) out
             /\ strings.Contains (a +:+ ": " +:+ out +:+ errOut) errOut).
  { intros a out errOut. split.
    - do 2 apply Contains_append_l. apply Contains_append_r, Contains_refl.
    - do 3 apply Contains_append_l. apply Contains_refl. }
  split.
  - run_apply; intros He; try discriminate;
      injection He as <-; try (left; eauto; fail);
      right; do 6 eexists; (split; [eassumption|]);
      (split; [reflexivity|]); apply Hc.
  - run_delete; intros He; try discriminate;
      injection He as <-; try (left; eauto; fail);
      right; do 6 eexists; (split; [eassumption|]);
      (split; [reflexivity|]); apply Hc.
Qed.

End ToolProperties.

(** * Properties of the request of [proxyGet] *)

Section ProxyGetProperties.

Context `{URLParser}.

Lemma paramValues_params (key : string) (vals : list string) (r : ProxyRequest) :
  prParams (paramValues key vals r)
  = match vals with
    | [] => prParams r
    | _ => <[key := default [] (prParams r !! key) ++ vals]> (prParams r)
    end.
Proof.
  revert r. induction vals as [|v vs IH]; intros r; [reflexivity|].
  change (paramValues key (v :: vs) r) with (paramValues key vs (Param key v r)).
  rewrite IH. destruct vs as [|v' vs]; [reflexivity|].
  simpl. rewrite lookup_insert_eq, insert_insert_eq. simpl.
  now rewrite <- app_assoc.
Qed.

Lemma paramValues_fields (key : string) (vals : list string) (r : ProxyRequest) :
  prSuffix (paramValues key vals r) = prSuffix r
  /\ prName (paramValues key vals r) = prName r
  /\ prNamespace (paramValues key vals r) = prNamespace r.
Proof.
  revert r. induction vals as [|v vs IH]; intros r; [repeat split|].
  change (paramValues key (v :: vs) r) with (paramValues key vs (Param key v r)).
  destruct (IH (Param key v r)) as (-> & -> & ->). repeat split.
Qed.

Lemma paramQuery_fields (kvs : list (string * list string)) (r : ProxyRequest) :
  prSuffix (paramQuery kvs r) = prSuffix r
  /\ prName (paramQuery kvs r) = prName r
  /\ prNamespace (paramQuery kvs r) = prNamespace r.
Proof.
  revert r. induction kvs as [|[k vals] kvs IH]; intros r; [repeat split|].
  change (paramQuery ((k, vals) :: kvs) r)
    with (paramQuery kvs (paramValues k vals r)).
  destruct (IH (paramValues k vals r)) as (-> & -> & ->).
  apply paramValues_fields.
Qed.

(** The parameters after the loops, for any order of distinct keys that
    the request does not have yet. *)
Lemma paramQuery_lookup (kvs : list (string * list string)) (r : ProxyRequest)
    (k : string) :
  NoDup kvs.*1 ->
  (forall k', k' ∈ kvs.*1 -> prParams r !! k' = None) ->
  prParams (paramQuery kvs r) !! k
  = match (list_to_map kvs : gmap string (list string)) !! k with
    | Some (v :: vs) => Some (v :: vs)
    | _ => prParams r !! k
    end.
Proof.
  revert r. induction kvs as [|[k0 vals0] kvs IH]; intros r Hnd Hfresh.
  - simpl. now rewrite lookup_empty.
  - change (paramQuery ((k0, vals0) :: kvs) r)
      with (paramQuery kvs (paramValues k0 vals0 r)).
    simpl in Hnd. apply NoDup_cons in Hnd as [Hk0 Hnd].
    assert (Hr1 : forall k', k' <> k0 ->
                prParams (paramValues k0 vals0 r) !! k' = prParams r !! k').
    { intros k' Hne. rewrite paramValues_params.
      destruct vals0; [reflexivity|]. now rewrite lookup_insert_ne. }
    rewrite IH; [|exact Hnd|].
    + simpl. destruct (decide (k = k0)) as [->|Hne].
      * rewrite lookup_insert_eq.
        rewrite (not_elem_of_list_to_map_1 _ _ Hk0).
        rewrite paramValues_params.
        assert (Hnone : prParams r !! k0 = None)
          by (apply Hfresh; simpl; apply list_elem_of_here).
        destruct vals0 as [|v vs]; [reflexivity|].
        rewrite lookup_insert_eq, Hnone. reflexivity.
      * rewrite lookup_insert_ne by congruence.
        now rewrite Hr1.
    + intros k' Hk'. rewrite Hr1.
      * apply Hfresh. simpl. now apply list_elem_of_further.
      * intros ->. contradiction.
Qed.

(** X25. A path that parses: the request goes to the path of the URL, and
    every value of its query is a parameter of the request under its
    key, in the order of the values; a key without values gives no
    parameter, and nothing is logged. The order in which the keys are
    ranged over does not matter. *)
Theorem proxyGet_forwards_query (c : client) (name namespace path : string)
    (port : Z) (p : string) (q : gmap string (list string)) :
  url_Parse path = inr (p, q) ->
  let r := fst (proxyGet c name namespace path port) in
  prSuffix r = p
  /\ prName r = name +:+ ":" +:+ pretty port
  /\ snd (proxyGet c name namespace path port) = []
  /\ (forall k, prParams r !! k
                = match q !! k with
                  | Some (v :: vs) => Some (v :: vs)
                  | _ => None
                  end)
  /\ (forall kvs, kvs ≡ₚ map_to_list q ->
                  prParams (paramQuery kvs (proxyBase name namespace port p))
                  = prParams r).
Proof.
  intros Hparse r. unfold r, proxyGet. rewrite Hparse. simpl.
  assert (Hany : forall kvs k,
             kvs ≡ₚ map_to_list q ->
             prParams (paramQuery kvs (proxyBase name namespace port p)) !! k
             = match q !! k with
               | Some (v :: vs) => Some (v :: vs)
               | _ => None
               end).
  { intros kvs k Hperm.
    assert (Hnd : NoDup kvs.*1).
    { rewrite Hperm. apply NoDup_fst_map_to_list. }
    rewrite paramQuery_lookup; [|exact Hnd|intros; apply lookup_empty].
    rewrite (list_to_map_proper _ _ Hnd Hperm), list_to_map_to_list.
    simpl. rewrite lookup_empty. reflexivity. }
  destruct (paramQuery_fields (map_to_list q) (proxyBase name namespace port p))
    as (Hs & Hn & _).
  split; [exact Hs|]. split; [exact Hn|]. split; [reflexivity|].
  split; [intros k; now apply Hany|].
  intros kvs Hperm. apply map_eq. intros k.
  rewrite (Hany kvs k Hperm). symmetry. now apply Hany.
Qed.

(** X26. A path that does not parse does not make [proxyGet] fail: the failure
    is logged, and the request goes to the path as it was given, query
    string included, without any parameter. *)
Theorem proxyGet_unparsable_path (c : client) (name namespace path : string)
    (port : Z) (e : Err) :
  url_Parse path = inl e ->
  proxyGet c name namespace path port
  = (proxyBase name namespace port path,
     ["failed to parse path " +:+ path +:+ ": " +:+ Error e])
  /\ prSuffix (fst (proxyGet c name namespace path port)) = path
  /\ prParams (fst (proxyGet c name namespace path port)) = ∅.
Proof.
  intros Hparse. unfold proxyGet. rewrite Hparse. simpl.
  rewrite map_to_list_empty. repeat split.
Qed.

End ProxyGetProperties.

(** * Runs on the small cluster *)

Import Demo.

(** The queries on the cluster: the revision [canary] is added to a
    selector, or stands alone; without a revision nothing is added, and
    a nil map gives the query without parameters. *)
Example GetIstioPods_queries :
  trace (snd (GetIstioPods c1 "istio-system" (Some pilotParams) st0))
  = [EvListPods "istio-system"
       {[ "labelSelector" := "app=istiod,istio.io/rev=canary";
          "fieldSelector" := "status.phase=Running" ]}]
  /\ trace (snd (GetIstioPods c1 "istio-system" (Some ∅) st0))
     = [EvListPods "istio-system" {[ "labelSelector" := "istio.io/rev=canary" ]}]
  /\ trace (snd (GetIstioPods c0 "istio-system" (Some pilotParams) st0))
     = [EvListPods "istio-system" pilotParams]
  /\ trace (snd (GetIstioPods c0 "istio-system" None st0))
     = [EvListPods "istio-system" ∅].
Proof. repeat split; vm_compute; reflexivity. Qed.

(** C1: with the revision [canary] and a nil map, the write into the map
    panics, and no query is made. *)
Lemma GetIstioPods_nil_map_panics_witness :
  GetIstioPods c1 "istio-system" None st0
  = ((Panics "assignment to entry in nil map", None), st0).
Proof.
  apply (GetIstioPods_nil_map_panics c1 "istio-system" st0). discriminate.
Defined.

(** C2: in a namespace without pods [GetIstioPods] returns the empty list
    and a nil error. *)
Lemma GetIstioPods_empty_success :
  fst (fst (GetIstioPods c1 "default" (Some pilotParams) st0))
  = Returns ([], None).
Proof. vm_compute. reflexivity. Qed.

Lemma empty_resolution_witness :
  fst (AllDiscoveryDo c0 "default" "/debug/syncz" st0)
  = (∅, Some (errorString "unable to find any Pilot instances"))
  /\ fst (GetIstioVersions c0 "default" st0)
     = (None, Some (errorString ("no running Istio pods in " +:+ quote "default"))).
Proof.
  split.
  - destruct (empty_resolution c0 "default" pilotParams st0 1%nat eq_refl)
      as (_ & Hd & _).
    now rewrite (Hd eq_refl "/debug/syncz").
  - destruct (empty_resolution c0 "default" istioParams st0 1%nat eq_refl)
      as (_ & _ & Hv).
    now rewrite (Hv eq_refl).
Defined.

(** C3: [istiod-b] fails, and [istiod-c] after it is not probed; the
    answer of [istiod-a] is not returned and the error is not a
    multi-error. *)
Lemma AllDiscoveryDo_stops_at_first_failure :
  fst (AllDiscoveryDo c0 "istio-system" "/debug/syncz" st0)
  = (∅, Some (extError "dial tcp: i/o timeout"))
  /\ trace (snd (AllDiscoveryDo c0 "istio-system" "/debug/syncz" st0))
     = [EvListPods "istio-system" pilotParams;
        EvProxyGet "istiod-a" "istio-system" "/debug/syncz" 8080;
        EvProxyGet "istiod-b" "istio-system" "/debug/syncz" 8080].
Proof. split; vm_compute; reflexivity. Qed.

Lemma AllDiscoveryDo_fail_fast_witness :
  (fst (AllDiscoveryDo c1 "healthy" "/debug/syncz" st0)
   = ({[ "istiod-a" := payloadA ]}, None)
   /\ length (trace (snd (AllDiscoveryDo c1 "healthy" "/debug/syncz" st0))) = 3%nat)
  /\ (fst (AllDiscoveryDo c1 "istio-system" "/debug/syncz" st0)
      = (∅, Some (extError "dial tcp: i/o timeout"))
      /\ length (trace (snd (AllDiscoveryDo c1 "istio-system" "/debug/syncz" st0)))
         = 3%nat).
Proof.
  split.
  - destruct (AllDiscoveryDo_fail_fast c1 "healthy" "/debug/syncz" st0
                [podA; podC] 1%nat eq_refl ltac:(discriminate)) as [Hok _].
    destruct Hok as [Hres Htr].
    { repeat constructor; eexists; reflexivity. }
    rewrite Hres, Htr. split; reflexivity.
  - destruct (AllDiscoveryDo_fail_fast c1 "istio-system" "/debug/syncz" st0
                [podA; podB; podC] 1%nat eq_refl ltac:(discriminate)) as [_ Hfail].
    destruct (Hfail [(podA, inr payloadA)] podB "dial tcp: i/o timeout"
                [(podC, inr "")] eq_refl) as [Hres Htr].
    { repeat constructor; eexists; reflexivity. }
    rewrite Hres, Htr. split; reflexivity.
Defined.

(** C5: with a probe that fails among others in [istio-system], and with
    every probe failing in [down], the pointer is not nil and the error is
    a multi-error; the two results differ by their content only. The
    failures of the operation itself, as in [default] where there is no
    pod, have the nil pointer. *)
Lemma GetIstioVersions_one_shape :
  fst (GetIstioVersions c0 "istio-system" st0)
  = (Some [mkServerInfo "pilot"
             (mkBuildInfo "1.7-alpha.9c900ba" "9c900ba74d10a1" "" "Clean"
                          "1.7-alpha.9c900ba")],
     Some (multiError
             [errorString
                "error port-forewarding into istiod-b : dial tcp: i/o timeout"]))
  /\ fst (GetIstioVersions c0 "down" st0)
     = (Some [],
        Some (multiError
                [errorString
                   "error port-forewarding into istiod-b : dial tcp: i/o timeout";
                 errorString
                   "error port-forewarding into istiod-b : dial tcp: i/o timeout"]))
  /\ fst (GetIstioVersions c0 "default" st0)
     = (None, Some (errorString ("no running Istio pods in " +:+ quote "default"))).
Proof. repeat split; vm_compute; reflexivity. Qed.

Lemma GetIstioVersions_collect_all_witness :
  (fst (GetIstioVersions c0 "istio-system" st0)
   = (Some [mkServerInfo "pilot" (parseVersion payloadA)],
      Some (multiError
              [errorString
                 "error port-forewarding into istiod-b : dial tcp: i/o timeout"]))
   /\ exists msg,
        strings.Contains msg "istiod-b"
        /\ strings.Contains msg "dial tcp: i/o timeout")
  /\ fst (GetIstioVersions c0 "down" st0)
     = (Some [],
        Some (multiError
                [errorString
                   "error port-forewarding into istiod-b : dial tcp: i/o timeout";
                 errorString
                   "error port-forewarding into istiod-b : dial tcp: i/o timeout"])).
Proof.
  split.
  - destruct (GetIstioVersions_collect_all c0 "istio-system" st0
                [podA; podB; podC] 1%nat eq_refl ltac:(discriminate))
      as (Hr & Hin & _).
    split; [rewrite Hr; reflexivity|].
    destruct (Hin podB "dial tcp: i/o timeout") as (msg & _ & Hname & Herr).
    { apply list_elem_of_further, list_elem_of_here. }
    exists msg. split; assumption.
  - destruct (GetIstioVersions_collect_all c0 "down" st0
                [podB; podB] 1%nat eq_refl ltac:(discriminate))
      as (_ & _ & _ & Hall).
    destruct Hall as [Hr _].
    + repeat constructor; eexists; reflexivity.
    + rewrite Hr. reflexivity.
Defined.

(** C6: a request that fails on the wire, and the forwarder is closed. *)
Lemma EnvoyDo_closes_tunnel_witness :
  exists (mid : list Event) (w : World),
    trace (snd (EnvoyDo c0 "productpage-v1" "default" "GET" "config_dump" "" st0))
    = trace st0
      ++ [EvNewPortForwarder "productpage-v1" "default" "127.0.0.1" 0 15000;
          EvStart "productpage-v1"]
      ++ mid ++ [EvClose "productpage-v1"]
    /\ Forall notClose mid
    /\ world (snd (EnvoyDo c0 "productpage-v1" "default" "GET" "config_dump" "" st0))
       = fw_Close "productpage-v1" w.
Proof.
  destruct (EnvoyDo_closes_tunnel c0 "productpage-v1" "default" "GET" "config_dump"
              "" st0 "productpage-v1" 1%nat 2%nat eq_refl eq_refl)
    as (mid & w & Htrace & Hmid & Hworld & _).
  exists mid, w. repeat split; assumption.
Defined.

Example EnvoyDo_success :
  EnvoyDo c0 "productpage-v1" "default" "GET" "stats" "ignored" st0
  = (("server.live: 1", None),
     mkState (6%nat : World) (heap st0)
       [EvNewPortForwarder "productpage-v1" "default" "127.0.0.1" 0 15000;
        EvStart "productpage-v1";
        EvNewRequest "GET" "http://127.0.0.1:40123/stats" None;
        EvHTTPDo (mkRequest "GET" "http://127.0.0.1:40123/stats" None);
        EvReadAll "server.live: 1";
        EvBodyClose "server.live: 1";
        EvClose "productpage-v1"]).
Proof. vm_compute. reflexivity. Qed.

(** C7: the shell of the container answers on stderr. *)
Lemma PodExec_error_has_stderr_witness :
  exists msg : string,
    fst (PodExec c0 "productpage-v1" "default" "istio-proxy"
           "pilot-agent request GET stats" st0)
    = ("", "sh: 1: pilot-agent: not found", Some (errorString msg))
    /\ strings.Contains msg "sh: 1: pilot-agent: not found".
Proof.
  destruct (PodExec_error_has_stderr c0 "productpage-v1" "default" "istio-proxy"
              "pilot-agent request GET stats" st0 tt
              (mkExecRequest "productpage-v1" "default" "istio-proxy"
                 "pilot-agent request GET stats")
              "" "sh: 1: pilot-agent: not found"
              "command terminated with exit code 127" 1%nat
              eq_refl eq_refl eq_refl ltac:(discriminate))
    as (msg & Hres & _ & Hcontains & _).
  exists msg. split; assumption.
Defined.

Example PodExec_message :
  snd (fst (PodExec c0 "productpage-v1" "default" "istio-proxy" "ls /nope" st0))
  = Some (errorString
            ("error exec'ing into productpage-v1/default istio-proxy container: "
             +:+ "error exec'ing into productpage-v1/default istio-proxy container: "
             +:+ "command terminated with exit code 127"
             +:+ String "010"%char "sh: 1: pilot-agent: not found")).
Proof. vm_compute. reflexivity. Qed.

(** C10: the copy of the configuration at location 1 is put at location
    2, and the one after an assignment through it at location 3. *)
Lemma RESTConfig_fresh_copy_witness :
  exists (p : loc) (st1 : State),
    RESTConfig c0 st0 = (Some p, st1)
    /\ p <> config c0
    /\ heap st1 !! p = Some "https://cluster"
    /\ configOf c0 (snd (storeConfig p "https://elsewhere" st1))
       = Some "https://cluster".
Proof.
  destruct (RESTConfig_fresh_copy c0 st0 "https://cluster" eq_refl)
    as (p & st1 & Hrun & _ & Hne & Hcopy & _ & _ & _ & Hafter).
  exists p, st1. repeat split; try assumption.
  exact (proj1 (Hafter "https://elsewhere")).
Defined.

Example RESTConfig_twice :
  fst (RESTConfig c0 st0) = Some 2%positive
  /\ fst (RESTConfig c0 (snd (RESTConfig c0 st0))) = Some 3%positive
  /\ heap (snd (storeConfig 2%positive "https://elsewhere" (snd (RESTConfig c0 st0))))
     = {[ 1%positive := "https://cluster"; 2%positive := "https://elsewhere" ]}.
Proof. repeat split; vm_compute; reflexivity. Qed.

(** * Further runs *)

Import DemoTools.

(** A string whose only segment is itself has no separator in it. *)
Lemma no_sep_check (s : string) (sep : ascii) :
  strings.Split s sep = [s] ->
  forall pre post, s <> pre +:+ String sep post.
Proof.
  intros Hs. pose proof (Split_no_sep s sep) as Hall.
  rewrite Hs in Hall. now inversion Hall.
Qed.

Lemma parseVersion_rejoin_witness :
  payloadA
  = Version (parseVersion payloadA) +:+ "-" +:+ GitRevision (parseVersion payloadA)
    +:+ "-" +:+ BuildStatus (parseVersion payloadA).
Proof. apply (parseVersion_rejoin payloadA). vm_compute. lia. Defined.

Lemma parseVersion_fields_no_dash_witness :
  GitRevision (parseVersion payloadA) <> "9c900ba" +:+ String "-" "74d10a1"
  /\ BuildStatus (parseVersion payloadA) <> "Cl" +:+ String "-" "ean".
Proof.
  split.
  - apply (parseVersion_fields_no_dash payloadA); vm_compute; lia.
  - apply (parseVersion_fields_no_dash payloadA); vm_compute; lia.
Defined.

(** The list of [default] cannot be retrieved on the cluster in trouble. *)
Lemma list_failure_propagates_witness :
  fst (@GetIstioVersions Trouble.env Trouble.c1 "default" Trouble.st0)
  = (None, Some (errorString "unable to retrieve Pods: connection refused"))
  /\ fst (@AllDiscoveryDo Trouble.env Trouble.c1 "default" "/debug/syncz" Trouble.st0)
     = (∅, Some (errorString "unable to retrieve Pods: connection refused")).
Proof.
  split.
  - destruct (@list_failure_propagates Trouble.env Trouble.c1 "default" istioParams
                Trouble.st0 "connection refused" 1%nat eq_refl)
      as (_ & _ & _ & Hv).
    now rewrite (Hv eq_refl).
  - destruct (@list_failure_propagates Trouble.env Trouble.c1 "default" pilotParams
                Trouble.st0 "connection refused" 1%nat eq_refl)
      as (_ & _ & Hd & _).
    now rewrite (Hd eq_refl "/debug/syncz").
Defined.

Lemma decode_failure_text_lost_witness :
  fst (@GetIstioPods Trouble.env Trouble.c1 "garbled" (Some ∅) Trouble.st0)
  = (Returns ([], Some (errorString "unable to parse PodList: <nil>")),
     Some {[ "labelSelector" := "istio.io/rev=canary" ]})
  /\ fst (@GetIstioVersions Trouble.env Trouble.c1 "garbled" Trouble.st0)
     = (None, Some (errorString "unable to parse PodList: <nil>")).
Proof.
  split.
  - destruct (@decode_failure_text_lost Trouble.env Trouble.c1 "garbled" ∅
                Trouble.st0 "unexpected end of JSON input" 1%nat eq_refl)
      as (Hget & _).
    rewrite Hget. reflexivity.
  - destruct (@decode_failure_text_lost Trouble.env Trouble.c1 "garbled" istioParams
                Trouble.st0 "unexpected end of JSON input" 1%nat eq_refl)
      as (_ & _ & Hv).
    now rewrite (Hv eq_refl).
Defined.

Lemma revision_appended_on_reuse_witness :
  exists (q1 q2 : gmap string string) (first : string),
    trace (snd (GetIstioPods c1 "istio-system"
                  (snd (fst (GetIstioPods c1 "istio-system" (Some pilotParams) st0)))
                  (snd (GetIstioPods c1 "istio-system" (Some pilotParams) st0))))
    = trace st0 ++ [EvListPods "istio-system" q1; EvListPods "istio-system" q2]
    /\ q1 !! "labelSelector" = Some first
    /\ q2 !! "labelSelector"
       = Some (first +:+ "," +:+ label_IstioRev +:+ "=" +:+ revision c1).
Proof.
  destruct (revision_appended_on_reuse c1 "istio-system" pilotParams st0)
    as (q1 & q2 & first & Htrace & _ & _ & H1 & H2); [discriminate|].
  exists q1, q2, first. repeat split; assumption.
Defined.

Example revision_twice :
  trace (snd (GetIstioPods c1 "istio-system"
                (snd (fst (GetIstioPods c1 "istio-system" (Some pilotParams) st0)))
                (snd (GetIstioPods c1 "istio-system" (Some pilotParams) st0))))
  = [EvListPods "istio-system"
       {[ "labelSelector" := "app=istiod,istio.io/rev=canary";
          "fieldSelector" := "status.phase=Running" ]};
     EvListPods "istio-system"
       {[ "labelSelector" := "app=istiod,istio.io/rev=canary,istio.io/rev=canary";
          "fieldSelector" := "status.phase=Running" ]}].
Proof. vm_compute. reflexivity. Qed.

Lemma GetIstioVersions_probes_every_pod_witness :
  trace (snd (GetIstioVersions c0 "istio-system" st0))
  = trace st0
    ++ EvListPods "istio-system" (revisionParams c0 istioParams)
       :: map (fun pod => EvProxyGet (Name pod) (Namespace pod) "/version" 15014)
              [podA; podB; podC].
Proof.
  apply (GetIstioVersions_probes_every_pod c0 "istio-system" st0
           [podA; podB; podC] 1%nat); [reflexivity | discriminate].
Defined.

Lemma GetIstioVersions_nil_error_iff_witness :
  snd (fst (GetIstioVersions c0 "healthy" st0)) = None.
Proof.
  apply (GetIstioVersions_nil_error_iff c0 "healthy" st0 [podA; podC] 1%nat);
    [reflexivity | discriminate |].
  repeat constructor; eexists; reflexivity.
Defined.

(** The one pod of [quiet] answers with nothing. *)
Lemma fan_out_empty_success_witness :
  fst (@AllDiscoveryDo Trouble.env Trouble.c1 "quiet" "/debug/syncz" Trouble.st0)
  = (∅, None)
  /\ fst (@GetIstioVersions Trouble.env Trouble.c1 "quiet" Trouble.st0)
     = (Some [], None).
Proof.
  destruct (@fan_out_empty_success Trouble.env Trouble.c1 "quiet" Trouble.st0
              [podC] 1%nat ltac:(discriminate)) as [Hd Hv].
  split.
  - apply Hd; [reflexivity | repeat constructor].
  - apply Hv; [reflexivity | repeat constructor].
Defined.

Lemma EnvoyDo_error_shape_witness :
  fst (fst (EnvoyDo c0 "productpage-v1" "default" "GET" "config_dump" "" st0)) = "".
Proof.
  apply (EnvoyDo_error_shape c0 "productpage-v1" "default" "GET" "config_dump" "" st0
           (errorString
              "failure running port forward process: connection reset by peer")).
  vm_compute. reflexivity.
Defined.

(** No forwarder to [gone], and the one to [busy] does not start: nothing
    is closed and no request is made. *)
Lemma EnvoyDo_not_opened_witness :
  @EnvoyDo Trouble.env Trouble.c1 "gone" "default" "GET" "stats" "" Trouble.st0
  = (("", Some (@extError Trouble.env "pod gone not found")),
     after Trouble.st0 (@EvNewPortForwarder Trouble.env "gone" "default" "127.0.0.1" 0 15000)
       1%nat)
  /\ @EnvoyDo Trouble.env Trouble.c1 "busy" "default" "GET" "stats" "" Trouble.st0
     = (("", Some (@errorString Trouble.env
                     "failure running port forward process: unable to listen on any port")),
        after (after Trouble.st0
                 (@EvNewPortForwarder Trouble.env "busy" "default" "127.0.0.1" 0 15000) 1%nat)
              (@EvStart Trouble.env "busy") 2%nat).
Proof.
  split.
  - exact (proj1 (@EnvoyDo_not_opened Trouble.env Trouble.c1 "gone" "default" "GET"
                    "stats" "" Trouble.st0)
             "pod gone not found" 1%nat eq_refl).
  - exact (proj2 (@EnvoyDo_not_opened Trouble.env Trouble.c1 "busy" "default" "GET"
                    "stats" "" Trouble.st0)
             "busy" 1%nat "unable to listen on any port" 2%nat eq_refl eq_refl).
Defined.

Lemma PodExec_errors_prefixed_witness :
  exists rest : string,
    errorString
      ("error exec'ing into productpage-v1/default istio-proxy container: "
       +:+ "error exec'ing into productpage-v1/default istio-proxy container: "
       +:+ "command terminated with exit code 127"
       +:+ String "010"%char "sh: 1: pilot-agent: not found")
    = errorString (execPrefix "productpage-v1" "default" "istio-proxy" +:+ rest).
Proof.
  apply (PodExec_errors_prefixed c0 "productpage-v1" "default" "istio-proxy"
           "ls /nope" st0).
  vm_compute. reflexivity.
Defined.

(** The client [c9] has no configuration, and a container must be named. *)
Lemma PodExec_setup_failure_witness :
  @PodExec Trouble.env Trouble.c9 "productpage-v1" "default" "istio-proxy" "ls"
    Trouble.st0
  = (("", "",
      Some (@errorString Trouble.env
              (execPrefix "productpage-v1" "default" "istio-proxy"
               +:+ "no configuration"))),
     Trouble.st0)
  /\ @PodExec Trouble.env Trouble.c1 "productpage-v1" "default" "" "ls" Trouble.st0
     = (("", "",
         Some (@errorString Trouble.env
                 (execPrefix "productpage-v1" "default" ""
                  +:+ "container name required"))),
        Trouble.st0).
Proof.
  split.
  - apply (@PodExec_setup_failure Trouble.env Trouble.c9). left. reflexivity.
  - apply (@PodExec_setup_failure Trouble.env Trouble.c1). right.
    exists tt. split; reflexivity.
Defined.

(** The logs of [istiod-c] break off, those of [istiod-b] do not open. *)
Lemma PodLogs_closes_stream_witness :
  opTrace (snd (PodLogs c0 "istiod-c" "istio-system" "discovery" false op0))
  = [OpLogsStream "istio-system" "istiod-c" (mkPodLogOptions "discovery" false);
     OpCopy "istiod-c"; OpStreamClose "istiod-c"]
  /\ fst (PodLogs c0 "istiod-c" "istio-system" "discovery" false op0)
     = ("", Some (extError "unexpected EOF")).
Proof.
  exact (PodLogs_closes_stream c0 "istiod-c" "istio-system" "discovery" false op0
           "istiod-c" 1%nat eq_refl).
Defined.

Lemma PodLogs_stream_failure_witness :
  PodLogs c0 "istiod-b" "istio-system" "discovery" true op0
  = (("", Some (extError "container not found")),
     opAfter op0
       (OpLogsStream "istio-system" "istiod-b" (mkPodLogOptions "discovery" true))
       1%nat).
Proof.
  exact (PodLogs_stream_failure c0 "istiod-b" "istio-system" "discovery" true op0
           "container not found" 1%nat eq_refl).
Defined.

Example PodLogs_text :
  fst (PodLogs c0 "istiod-a" "istio-system" "discovery" false op0)
  = ("info: ready", None).
Proof. vm_compute. reflexivity. Qed.

Lemma PodsForSelector_selector_witness :
  opTrace (snd (PodsForSelector c0 "istio-system"
                  ["app=istiod,istio=pilot"; "istio.io/rev=canary"] op0))
  = opTrace op0
    ++ [OpPodsList "istio-system" "app=istiod,istio=pilot,istio.io/rev=canary"].
Proof.
  destruct (PodsForSelector_selector c0 "istio-system"
              ["app=istiod,istio=pilot"; "istio.io/rev=canary"] op0)
    as (Hrun & _).
  rewrite Hrun. reflexivity.
Defined.

Example PodsForSelector_query :
  opTrace (snd (PodsForSelector c1 "istio-system"
                  ["app=istiod"; "istio.io/rev=canary"] op0))
  = [OpPodsList "istio-system" "app=istiod,istio.io/rev=canary"].
Proof. vm_compute. reflexivity. Qed.

(** The files. *)
Example removeEmptyFiles_run :
  removeEmptyFiles
    ["istio.yaml"; "empty.yaml"; "missing.yaml"; "bad.yaml"; "gateway.yaml"]
    (opWorld op0)
  = ["istio.yaml"; "bad.yaml"; "gateway.yaml"].
Proof. vm_compute. reflexivity. Qed.

Lemma yaml_operations_skip_empty_files_witness :
  ApplyYAMLFiles c0 "" ["empty.yaml"; "missing.yaml"] op0 = (None, op0)
  /\ ApplyYAMLFilesDryRun c0 "" ["empty.yaml"; "missing.yaml"] op0 = (None, op0)
  /\ DeleteYAMLFiles c0 "" ["empty.yaml"; "missing.yaml"] op0 = (None, op0)
  /\ DeleteYAMLFilesDryRun c0 "" ["empty.yaml"; "missing.yaml"] op0 = (None, op0).
Proof.
  apply (yaml_operations_skip_empty_files c0 "" ["empty.yaml"; "missing.yaml"] op0).
  repeat constructor.
Defined.

(** [bad.yaml] fails after [istio.yaml]; [gateway.yaml] is not applied:
    the fourteen calls are the seven of each of the first two files. *)
Lemma ApplyYAMLFiles_fail_fast_witness :
  fst (ApplyYAMLFiles c0 ""
         ["istio.yaml"; "empty.yaml"; "bad.yaml"; "gateway.yaml"] op0)
  = Some (errorString "error validating data: unknown field spec.hosst")
  /\ length (opTrace (snd (ApplyYAMLFiles c0 ""
                             ["istio.yaml"; "empty.yaml"; "bad.yaml"; "gateway.yaml"]
                             op0)))
     = 14%nat.
Proof.
  pose proof (proj2 (ApplyYAMLFiles_fail_fast c0 "" false
                       ["istio.yaml"; "empty.yaml"; "bad.yaml"; "gateway.yaml"] op0)
                ["istio.yaml"] "bad.yaml" ["gateway.yaml"]
                (errorString "error validating data: unknown field spec.hosst")
                eq_refl) as Hrun.
  cbv zeta in Hrun. rewrite Hrun.
  - split; vm_compute; reflexivity.
  - repeat constructor.
  - vm_compute. reflexivity.
Defined.

(** Both failures of [bad.yaml] are kept, and [gateway.yaml] is deleted
    after them. *)
Lemma DeleteYAMLFiles_collect_all_witness :
  fst (DeleteYAMLFiles c0 "istio-system"
         ["bad.yaml"; "empty.yaml"; "bad.yaml"; "gateway.yaml"] op0)
  = Some (multiError
            [errorString "error validating data: unknown field spec.hosst";
             errorString "error validating data: unknown field spec.hosst"])
  /\ length (opTrace (snd (DeleteYAMLFiles c0 "istio-system"
                             ["bad.yaml"; "empty.yaml"; "bad.yaml"; "gateway.yaml"]
                             op0)))
     = 18%nat.
Proof.
  pose proof (proj1 (DeleteYAMLFiles_collect_all c0 "istio-system" false
                       ["bad.yaml"; "empty.yaml"; "bad.yaml"; "gateway.yaml"] op0))
    as Hrun.
  cbv zeta in Hrun. rewrite Hrun. split; vm_compute; reflexivity.
Defined.

Lemma applyYAMLFile_explicit_namespace_witness :
  exists added,
    opTrace (snd (applyYAMLFile c0 "istio-system" true "istio.yaml" op0))
    = opTrace op0 ++ added
    /\ Forall (fun ev =>
                 match ev with
                 | OpNamespace => False
                 | OpApplyRun o =>
                     aoNamespace o = "istio-system" /\ aoEnforceNamespace o = true
                 | _ => True
                 end) added.
Proof.
  apply (applyYAMLFile_explicit_namespace c0 "istio-system" true "istio.yaml" op0).
  discriminate.
Defined.

(** Without a kubeconfig namespace a deletion fails, also in a namespace
    that is given; an apply in a given namespace goes through. *)
Lemma deleteFile_needs_kubeconfig_namespace_witness :
  @deleteFile Demo.env handles NoKubeconfig.tools c0 "istio-system" false
    "istio.yaml" op0
  = (Some (extError "invalid configuration: no configuration has been provided"),
     opAfter op0 OpNamespace 1%nat).
Proof.
  exact (@deleteFile_needs_kubeconfig_namespace Demo.env handles NoKubeconfig.tools
           c0 "istio-system" false "istio.yaml" op0 "" false
           "invalid configuration: no configuration has been provided" 1%nat
           eq_refl).
Defined.

Example apply_without_kubeconfig :
  fst (@ApplyYAMLFiles Demo.env handles NoKubeconfig.tools c0 "istio-system"
         ["istio.yaml"] op0) = None
  /\ fst (@ApplyYAMLFiles Demo.env handles NoKubeconfig.tools c0 ""
            ["istio.yaml"] op0)
     = Some (extError "invalid configuration: no configuration has been provided").
Proof. split; vm_compute; reflexivity. Qed.

Lemma deleteFile_namespace_witness :
  exists added,
    opTrace (snd (deleteFile c0 "" true "istio.yaml" op0)) = opTrace op0 ++ added
    /\ Forall (fun ev =>
                 match ev with
                 | OpBuilderDo ns' enforce' _ => ns' = "default" /\ enforce' = false
                 | OpRunDelete o =>
                     doWarnClusterScope o = false
                     /\ doCascade o = true /\ doWaitForDeletion o = true
                     /\ doIgnoreNotFound o = true /\ doGracePeriod o = (-1)%Z
                 | _ => True
                 end) added.
Proof.
  exact (deleteFile_namespace c0 "" true "istio.yaml" op0 "default" false 1%nat
           eq_refl).
Defined.

(** The request for a path with a query, and for one that does not
    parse. *)

Import DemoURL.

Lemma proxyGet_forwards_query_witness :
  prSuffix (fst (proxyGet c0 "istiod-a" "istio-system"
                   "/debug/syncz?proxyID=a&verbose=1&proxyID=b" 8080))
  = "/debug/syncz"
  /\ prName (fst (proxyGet c0 "istiod-a" "istio-system"
                    "/debug/syncz?proxyID=a&verbose=1&proxyID=b" 8080))
     = "istiod-a:8080"
  /\ prParams (fst (proxyGet c0 "istiod-a" "istio-system"
                      "/debug/syncz?proxyID=a&verbose=1&proxyID=b" 8080))
     !! "proxyID" = Some ["a"; "b"].
Proof.
  destruct (@proxyGet_forwards_query Demo.env parser c0 "istiod-a" "istio-system"
              "/debug/syncz?proxyID=a&verbose=1&proxyID=b" 8080 "/debug/syncz"
              ({[ "proxyID" := ["a"; "b"]; "verbose" := ["1"] ]}
               : gmap string (list string)))
    as (Hs & Hn & _ & Hp & _).
  - vm_compute. reflexivity.
  - split; [exact Hs|]. split; [exact Hn|]. rewrite Hp. reflexivity.
Defined.

Lemma proxyGet_unparsable_path_witness :
  proxyGet c0 "istiod-a" "istio-system" "/debug/%zz" 8080
  = (proxyBase "istiod-a" "istio-system" 8080 "/debug/%zz",
     ["failed to parse path /debug/%zz: invalid URL escape %zz"]).
Proof.
  exact (proj1 (proxyGet_unparsable_path c0 "istiod-a" "istio-system" "/debug/%zz"
                  8080 "invalid URL escape %zz" eq_refl)).
Defined.
